(** * PageRank (pagerank.py): transition model, sampling and iterative estimators

    A shallow embedding of [transition_model], [sample_pagerank] and
    [iterate_pagerank] of [pagerank.py].

    - A page is a string; a corpus is a Python [dict] from pages to [set]s of
      pages, modelled as [gmap page (gset page)].  Iterating [corpus.keys()]
      visits the keys in the fixed order [keys corpus].
    - Python numbers ([int] and [float]) are modelled as exact rationals [Q]:
      rounding of [float] operations is outside the model, and two numbers are
      compared with [==] ([Qeq]).  The [OverflowError] of an [int] beyond the
      range of the floats is outside the model too: statements about what is
      raised are made for damping factors within [in_float_range].
    - Python exceptions are modelled by the error monad [result].
    - [random.choices] is modelled by [choices], which receives the value of
      the underlying [random()] call from an explicit random source.
    - Where rounding decides the behaviour (whether the loop of
      [iterate_pagerank] is ever left), the function is modelled a second
      time, in module [Binary64], with IEEE 754 binary64 numbers. *)

From Stdlib Require Import QArith Qabs Qround Lqa Lia.
From stdpp Require Import base option list gmap strings fin_maps fin_sets.
From Equations Require Import Equations.
From Corelib Require Import PrimFloat.

Local Open Scope Q_scope.

(** ** Python values *)

Abbreviation page := string (only parsing).

Inductive exception : Type :=
| KeyError
| ZeroDivisionError
| IndexError
| ValueError.

Inductive result (A : Type) : Type :=
| Ok (a : A)
| Raise (e : exception).
Arguments Ok {A} a.
Arguments Raise {A} e.

#[global] Instance result_ret : MRet result := fun A a => Ok a.
#[global] Instance result_bind : MBind result := fun A B f r =>
  match r with
  | Ok a => f a
  | Raise e => Raise e
  end.

(** [len(x)] as a number. *)
Definition of_len (n : nat) : Q := inject_Z (Z.of_nat n).

(** [a / b]: true division raises [ZeroDivisionError] on a zero divisor. *)
Definition truediv (a b : Q) : result Q :=
  if Qeq_bool b 0 then Raise ZeroDivisionError else Ok (a / b).

(** [d[k]] raises [KeyError] when [k] is not a key. *)
Definition getitem {V : Type} (d : gmap page V) (k : page) : result V :=
  match d !! k with
  | Some v => Ok v
  | None => Raise KeyError
  end.

(** [d.keys()] and [list(d.keys())].  Python iterates a dictionary in insertion
    order; the model iterates it in the order of [map_to_list].  Every loop
    over the keys of the corpus uses this one order, and no property below
    depends on which order it is. *)
Definition keys {V : Type} (d : gmap page V) : list page := (map_to_list d).*1.

(** [list(d.values())]. *)
Definition values {V : Type} (d : gmap page V) : list V := (map_to_list d).*2.

(** [for x in xs: st = body x st], stopping at the first exception. *)
Fixpoint for_in {A S : Type} (xs : list A) (body : A -> S -> result S) (st : S)
  : result S :=
  match xs with
  | [] => Ok st
  | x :: xs' => st' ← body x st; for_in xs' body st'
  end.

(** ** transition_model *)

Definition transition_model (corpus : gmap page (gset page)) (pg : page)
    (damping_factor : Q) : result (gmap page Q) :=
  let prob_dict : gmap page Q := ∅ in
  let total_pages := of_len (size corpus) in
  links ← getitem corpus pg;
  let num_links := of_len (size links) in
  if Qeq_bool num_links 0 then
    for_in (keys corpus) (fun i prob_dict =>
      v ← truediv 1 total_pages;
      Ok (<[i := v]> prob_dict)) prob_dict
  else
    for_in (keys corpus) (fun i prob_dict =>
      links_i ← getitem corpus pg;
      if decide (i ∈ links_i) then
        a ← truediv (1 - damping_factor) total_pages;
        b ← truediv damping_factor num_links;
        Ok (<[i := a + b]> prob_dict)
      else
        a ← truediv (1 - damping_factor) total_pages;
        Ok (<[i := a]> prob_dict)) prob_dict.

(** ** random.choices

    [random.choices(population, weights=ws)[0]] as CPython (3.9 and later)
    computes it: a [ValueError] when the numbers of weights and of pages
    differ or when the total weight is not positive, an [IndexError] on an
    empty population, and otherwise the page at the index where
    [bisect_right] places [random() * total] among the cumulative weights.
    The value [u] of the [random()] call is an argument. *)

(** [itertools.accumulate]. *)
Fixpoint accumulate_from (acc : Q) (ws : list Q) : list Q :=
  match ws with
  | [] => []
  | w :: ws' => (acc + w) :: accumulate_from (acc + w) ws'
  end.

Definition accumulate (ws : list Q) : list Q :=
  match ws with
  | [] => []
  | w :: ws' => w :: accumulate_from w ws'
  end.

(** [l[i]] on a list, for a non-negative index. *)
Definition list_getitem {A : Type} (l : list A) (i : nat) : result A :=
  match l !! i with
  | Some x => Ok x
  | None => Raise IndexError
  end.

(** [bisect.bisect_right(a, x, lo, hi)]. *)
Equations? bisect (a : list Q) (x : Q) (lo hi : nat) : result nat
  by wf (hi - lo)%nat lt :=
  bisect a x lo hi with decide (lo < hi)%nat => {
    | right _ := Ok lo;
    | left _ with list_getitem a ((lo + hi) / 2)%nat => {
      | Raise e := Raise e;
      | Ok a_mid with Qlt_le_dec x a_mid => {
        | left _ := bisect a x lo ((lo + hi) / 2)%nat;
        | right _ := bisect a x ((lo + hi) / 2 + 1)%nat hi } } }.
Proof.
  all: change (Nat.divmod (lo + hi) 1 0 1).1 with ((lo + hi) / 2)%nat;
    pose proof (Nat.div_mod_eq (lo + hi) 2);
    pose proof (Nat.mod_upper_bound (lo + hi) 2); lia.
Qed.

Definition choices (population : list page) (weights : list Q) (u : Q)
  : result page :=
  let n := length population in
  let cum_weights := accumulate weights in
  if decide (length cum_weights = n) then
    total ← list_getitem cum_weights (length cum_weights - 1);
    if Qle_bool total 0 then Raise ValueError
    else
      idx ← bisect cum_weights (u * total) 0 (n - 1);
      list_getitem population idx
  else Raise ValueError.

(** ** sample_pagerank

    [rand i] is the value returned by the [random()] call of draw [i]. *)

Definition sample_pagerank (corpus : gmap page (gset page))
    (damping_factor : Q) (n : Z) (rand : nat -> Q) : result (gmap page Q) :=
  let total_pages := of_len (size corpus) in
  let prob : gmap page Q := ∅ in
  let sample_dist : gmap page Q := ∅ in
  st ← for_in (keys corpus) (fun p st =>
    v ← truediv 1 total_pages;
    Ok (<[p := v]> (st.1), <[p := 0]> (st.2))) (prob, sample_dist);
  st ← for_in (seq 0 (Z.to_nat n)) (fun i st =>
    current_page ← choices (keys corpus) (values (st.1)) (rand i);
    c ← getitem (st.2) current_page;
    let sample_dist := <[current_page := c + 1]> (st.2) in
    prob ← transition_model corpus current_page damping_factor;
    Ok (prob, sample_dist)) st;
  for_in (keys (st.2)) (fun k sample_dist =>
    c ← getitem sample_dist k;
    v ← truediv c (inject_Z n);
    Ok (<[k := v]> sample_dist)) (st.2).

(** ** iterate_pagerank *)

(** [max(a, b)]: the first argument unless the second is larger. *)
Definition pymax (a b : Q) : Q := if Qlt_le_dec a b then b else a.

(** The inner [for i in corpus.keys()] loop computing [sum_pri] for page [p]. *)
Definition sum_pri_loop (corpus : gmap page (gset page)) (total_pages : Q)
    (prev_prob : gmap page Q) (p : page) : result Q :=
  for_in (keys corpus) (fun i sum_pri =>
    links ← getitem corpus i;
    if Qeq_bool (of_len (size links)) 0 then
      r ← getitem prev_prob i;
      v ← truediv r total_pages;
      Ok (sum_pri + v)
    else if decide (p ∈ links) then
      r ← getitem prev_prob i;
      v ← truediv r (of_len (size links));
      Ok (sum_pri + v)
    else Ok sum_pri) 0.

(** One execution of the body of the [while] loop after the snapshot
    [prev_prob = new_prob.copy()]: the state is [(new_prob, max_diff)]. *)
Definition update_pass (corpus : gmap page (gset page)) (damping_factor : Q)
    (total_pages : Q) (prev_prob new_prob : gmap page Q)
  : result (gmap page Q * Q) :=
  for_in (keys corpus) (fun p st =>
    sum_pri ← sum_pri_loop corpus total_pages prev_prob p;
    a ← truediv (1 - damping_factor) total_pages;
    let new_prob := <[p := a + damping_factor * sum_pri]> (st.1) in
    np ← getitem new_prob p;
    pp ← getitem prev_prob p;
    Ok (new_prob, pymax (st.2) (Qabs (np - pp)))) (new_prob, 0).

(** The [while max_diff > 0.001] loop; [None] when [fuel] passes were not
    enough to leave it. *)
Fixpoint while_loop (fuel : nat) (corpus : gmap page (gset page))
    (damping_factor total_pages : Q) (new_prob prev_prob : gmap page Q)
    (max_diff : Q) : option (result (gmap page Q)) :=
  if Qlt_le_dec (1 # 1000) max_diff then
    match fuel with
    | O => None
    | S fuel' =>
        let prev_prob := new_prob in
        match update_pass corpus damping_factor total_pages prev_prob new_prob with
        | Raise e => Some (Raise e)
        | Ok st =>
            while_loop fuel' corpus damping_factor total_pages (st.1) prev_prob (st.2)
        end
    end
  else Some (Ok new_prob).

Definition iterate_init (corpus : gmap page (gset page)) (total_pages : Q)
  : result (gmap page Q * gmap page Q) :=
  for_in (keys corpus) (fun p st =>
    v ← truediv 1 total_pages;
    Ok (<[p := v]> (st.1), <[p := -1]> (st.2))) (∅, ∅).

Definition iterate_pagerank (fuel : nat) (corpus : gmap page (gset page))
    (damping_factor : Q) : option (result (gmap page Q)) :=
  let total_pages := of_len (size corpus) in
  let max_diff := 11 # 10000 in
  match iterate_init corpus total_pages with
  | Raise e => Some (Raise e)
  | Ok st =>
      while_loop fuel corpus damping_factor total_pages (st.1) (st.2) max_diff
  end.

(** ** crawl

    [crawl] reads a directory.  The model receives what the file system
    gives: the names [os.listdir] returns, each with the contents that
    [open(...).read()] yields ([None] when opening or reading the file
    raises), and the link extraction
    [re.findall(r"<a\s+(?:[^>]*?)href=...", contents)] as a function
    [findall]. *)

(** [s.endswith(suffix)]. *)
Fixpoint endswith (s suffix : string) : bool :=
  if String.eqb s suffix then true
  else match s with
       | EmptyString => false
       | String _ s' => endswith s' suffix
       end.

(** What [crawl] does: it returns the corpus, or the [open]/[read] of the
    file [filename] raises, or a Python exception of the model is raised. *)
Inductive crawl_result : Type :=
| Crawled (pages : gmap page (gset page))
| ReadFailed (filename : string)
| Raised (e : exception).

(** The first loop: [pages[filename] = set(links) - {filename}] for every
    name of the listing that ends in [.html]. *)
Fixpoint crawl_read (findall : string -> list string)
    (listing : list (string * option string)) (pages : gmap page (gset page))
  : string + gmap page (gset page) :=
  match listing with
  | [] => inr pages
  | (filename, contents) :: rest =>
      if negb (endswith filename ".html") then crawl_read findall rest pages
      else match contents with
           | None => inl filename
           | Some contents =>
               let links := findall contents in
               crawl_read findall rest
                 (<[filename := list_to_set links ∖ {[filename]}]> pages)
           end
  end.

(** The second loop: only the links that are keys of [pages] are kept. *)
Definition crawl_filter (pages : gmap page (gset page))
  : result (gmap page (gset page)) :=
  for_in (keys pages) (fun filename pages =>
    links ← getitem pages filename;
    Ok (<[filename := filter (fun link => is_Some (pages !! link)) links]> pages))
    pages.

Definition crawl (findall : string -> list string)
    (listing : list (string * option string)) : crawl_result :=
  match crawl_read findall listing ∅ with
  | inl filename => ReadFailed filename
  | inr pages =>
      match crawl_filter pages with
      | Ok pages => Crawled pages
      | Raise e => Raised e
      end
  end.

(** ** Notions used in the statements *)

(** Every linked page is a key of the corpus. *)
Definition corpus_invariant (corpus : gmap page (gset page)) : Prop :=
  forall p links, corpus !! p = Some links -> links ⊆ dom corpus.

(** The sum of a list of numbers. *)
Definition sumQ (l : list Q) : Q := foldr Qplus 0 l.

(** The sum of [f k] over the pages [k] of [ks]. *)
Definition sum_over (ks : list page) (f : page -> Q) : Q := sumQ (f <$> ks).

(** [sum(d.values())]. *)
Definition dist_sum (d : gmap page Q) : Q := sumQ (values d).

(** The value of page [k] in [d] ([0] when [k] is not a key). *)
Definition rank (d : gmap page Q) (k : page) : Q := default 0 (d !! k).

(** The corpus [{A: {}, B: {A}}]. *)
Definition dangling_corpus : gmap page (gset page) :=
  <["A"%string := ∅]> (<["B"%string := {["A"%string]}]> ∅).

(** The corpus [{A: {}}]. *)
Definition single_corpus : gmap page (gset page) := {["A"%string := ∅]}.

(** The cycle [{A: {B}, B: {C}, C: {A}}]. *)
Definition cycle_corpus : gmap page (gset page) :=
  <["A"%string := {["B"%string]}]>
    (<["B"%string := {["C"%string]}]> (<["C"%string := {["A"%string]}]> ∅)).

(** The sum of the integer counts [cnt k] over the pages [k] of [ks]. *)
Definition count_sum (ks : list page) (cnt : page -> Z) : Z :=
  foldr (fun k acc => (cnt k + acc)%Z) 0%Z ks.

(** A dictionary defined at exactly the pages of [ks], with value [f k] at [k]. *)
Definition tabulates (m : gmap page Q) (ks : list page) (f : page -> Q) : Prop :=
  forall k, m !! k = if decide (k ∈ ks) then Some (f k) else None.

(** The value [transition_model] stores for page [q], when the current page
    has the outgoing set [links]. *)
Definition transition_value (corpus : gmap page (gset page)) (links : gset page)
    (d : Q) (q : page) : Q :=
  if decide (size links = O) then 1 / of_len (size corpus)
  else if decide (q ∈ links)
       then (1 - d) / of_len (size corpus) + d / of_len (size links)
       else (1 - d) / of_len (size corpus).

(** The visit counters [sample_dist] after the draws [done]: page [k] holds
    the integer [cnt k], and the counters add up to the number of draws. *)
Definition count_inv (corpus : gmap page (gset page)) (done : list nat)
    (sd : gmap page Q) : Prop :=
  exists cq cnt, tabulates sd (keys corpus) cq /\
    (forall k, k ∈ keys corpus -> cq k == inject_Z (cnt k)) /\
    (forall k, 0 <= cnt k)%Z /\
    count_sum (keys corpus) cnt = Z.of_nat (length done).

(** The state [(prob, sample_dist)] of the walk after the draws [done]: the
    weights [prob] are positive on every page. *)
Definition walk_inv (corpus : gmap page (gset page)) (done : list nat)
    (st : gmap page Q * gmap page Q) : Prop :=
  (exists w, tabulates (st.1) (keys corpus) w /\
     forall k, k ∈ keys corpus -> 0 < w k) /\
  count_inv corpus done (st.2).

(** The fraction of the rank of page [i] that one pass gives to page [p]:
    [1/N] when [i] is dangling, [1/L(i)] when [i] links to [p]. *)
Definition share (corpus : gmap page (gset page)) (i p : page) : Q :=
  match corpus !! i with
  | Some links =>
      if decide (size links = O) then 1 / of_len (size corpus)
      else if decide (p ∈ links) then 1 / of_len (size links) else 0
  | None => 0
  end.

(** The rank of page [p] after one pass over the previous ranks [x]:
    [(1 - d)/N], plus [d * x i / L(i)] for each page [i] linking to [p], plus
    [d * x i / N] for each dangling page [i]. *)
Definition next_rank (corpus : gmap page (gset page)) (d : Q) (x : page -> Q)
    (p : page) : Q :=
  (1 - d) / of_len (size corpus)
  + d * sum_over (keys corpus) (fun i => x i * share corpus i p).

(** The power [d ^ j]. *)
Fixpoint qpow (d : Q) (j : nat) : Q :=
  match j with
  | O => 1
  | S j' => d * qpow d j'
  end.

(** The state [(new_prob, max_diff)] after one pass from the snapshot [prev]. *)
Definition pass (corpus : gmap page (gset page)) (d : Q) (prev : gmap page Q)
  : gmap page Q * Q :=
  match update_pass corpus d (of_len (size corpus)) prev prev with
  | Ok st => st
  | Raise _ => (prev, 0)
  end.

(** The initial ranks [new_prob] built before the loop. *)
Definition initial_ranks (corpus : gmap page (gset page)) : gmap page Q :=
  match iterate_init corpus (of_len (size corpus)) with
  | Ok st => st.1
  | Raise _ => ∅
  end.

(** The working ranks [new_prob] after [j] passes. *)
Fixpoint ranks_at (corpus : gmap page (gset page)) (d : Q) (j : nat)
  : gmap page Q :=
  match j with
  | O => initial_ranks corpus
  | S j' => (pass corpus d (ranks_at corpus d j')).1
  end.

(** The value of [max_diff] computed by pass [j + 1] from the ranks [x]. *)
Fixpoint diff_after (corpus : gmap page (gset page)) (d : Q) (j : nat)
    (x : gmap page Q) : Q :=
  match j with
  | O => (pass corpus d x).2
  | S j' => diff_after corpus d j' ((pass corpus d x).1)
  end.

(** The sum over all pages of the absolute change made by one pass from [x]. *)
Definition total_change (corpus : gmap page (gset page)) (d : Q)
    (x : gmap page Q) : Q :=
  sum_over (keys corpus)
    (fun k => Qabs (rank ((pass corpus d x).1) k - rank x k)).

(** [r] was produced by a full pass in which no page changed by more than
    [0.001]: the exit condition of the [while] loop. *)
Definition converged (corpus : gmap page (gset page)) (d : Q)
    (r : gmap page Q) : Prop :=
  exists prev max_diff,
    dom prev = dom corpus /\
    update_pass corpus d (of_len (size corpus)) prev prev = Ok (r, max_diff) /\
    max_diff <= 1 # 1000 /\
    forall k, k ∈ dom corpus -> Qabs (rank r k - rank prev k) <= max_diff.

(** [r] is the dictionary [{A: 1}], up to equality of rationals. *)
Definition is_single_one (r : gmap page Q) : Prop :=
  dom r = {["A"%string]} /\ exists v, r !! "A"%string = Some v /\ v == 1.

(** The probability that [transition_model] gives to the move from page [i]
    to page [p] ([0] when the call fails or [p] is not a key). *)
Definition transition_prob (corpus : gmap page (gset page)) (d : Q)
    (i p : page) : Q :=
  match transition_model corpus i d with
  | Ok m => rank m p
  | Raise _ => 0
  end.

(** A directory used in examples: two pages and a file that cannot be read. *)
Definition example_listing : list (string * option string) :=
  [("1.html"%string, Some "2.html"%string);
   ("2.html"%string, Some "3.html"%string);
   ("notes.txt"%string, None)].

(** A link extraction used in examples: the contents of a file is the one
    link it holds. *)
Definition one_link (contents : string) : list string := [contents].

(** The corpus of [example_listing]: [{1.html: {2.html}, 2.html: {}}]. *)
Definition example_corpus : gmap page (gset page) :=
  <["1.html"%string := {["2.html"%string]}]> (<["2.html"%string := ∅]> ∅).

(** The damping factors of magnitude at most 2^1023, [int] or [float]: for
    these no true division of [int]s and no product of an [int] and a
    [float] leaves the range of the floats.  Beyond that range these
    operations raise [OverflowError] on an [int], an exception that
    [truediv] does not model. *)
Definition in_float_range (d : Q) : Prop := Qabs d <= inject_Z (2 ^ 1023).

(** ** crawl, from the call of os.listdir

    [listdir] is what [os.listdir(directory)] gives: the listing, or [None]
    when it raises (no such directory, not a directory, no permission). *)

Inductive directory_result : Type :=
| ListFailed
| Listed (outcome : crawl_result).

Definition crawl_directory (findall : string -> list string)
    (listdir : option (list (string * option string))) : directory_result :=
  match listdir with
  | None => ListFailed
  | Some listing => Listed (crawl findall listing)
  end.

(** ** iterate_pagerank in binary64 arithmetic

    The same function with Python's [float] as IEEE 754 binary64 numbers
    (Rocq's primitive floats) instead of exact rationals, and with the corpus
    as a dictionary in insertion order: a list of pages with their links,
    without repeated pages.  The damping factor is a [float]; a length [n] is
    the float [n], which is exact below 2^53. *)

Module Binary64.

(** [float(n)] for a length [n]. *)
Fixpoint of_len (n : nat) : float :=
  match n with
  | O => PrimFloat.zero
  | S n' => PrimFloat.add (of_len n') PrimFloat.one
  end.

(** The literal [0.001]. *)
Definition threshold : float := 0x1.0624dd2f1a9fcp-10%float.

(** The literal [0.0011]. *)
Definition initial_max_diff : float := 0x1.205bc01a36e2fp-10%float.

(** [a / b] raises [ZeroDivisionError] on a zero divisor. *)
Definition truediv (a b : float) : result float :=
  if PrimFloat.eqb b PrimFloat.zero then Raise ZeroDivisionError
  else Ok (PrimFloat.div a b).

(** [max(a, b)]: the first argument unless the second is larger. *)
Definition pymax (a b : float) : float := if PrimFloat.ltb a b then b else a.

(** [corpus.keys()], in insertion order. *)
Definition corpus_keys (corpus : list (page * gset page)) : list page :=
  corpus.*1.

(** [corpus[k]]. *)
Fixpoint corpus_getitem (corpus : list (page * gset page)) (k : page)
  : result (gset page) :=
  match corpus with
  | [] => Raise KeyError
  | (k', links) :: rest =>
      if decide (k' = k) then Ok links else corpus_getitem rest k
  end.

Definition sum_pri_loop (corpus : list (page * gset page)) (total_pages : float)
    (prev_prob : gmap page float) (p : page) : result float :=
  for_in (corpus_keys corpus) (fun i sum_pri =>
    links ← corpus_getitem corpus i;
    if Nat.eqb (size links) 0 then
      r ← getitem prev_prob i;
      v ← truediv r total_pages;
      Ok (PrimFloat.add sum_pri v)
    else if decide (p ∈ links) then
      r ← getitem prev_prob i;
      v ← truediv r (of_len (size links));
      Ok (PrimFloat.add sum_pri v)
    else Ok sum_pri) PrimFloat.zero.

Definition update_pass (corpus : list (page * gset page)) (damping_factor : float)
    (total_pages : float) (prev_prob new_prob : gmap page float)
  : result (gmap page float * float) :=
  for_in (corpus_keys corpus) (fun p st =>
    sum_pri ← sum_pri_loop corpus total_pages prev_prob p;
    a ← truediv (PrimFloat.sub PrimFloat.one damping_factor) total_pages;
    let new_prob :=
      <[p := PrimFloat.add a (PrimFloat.mul damping_factor sum_pri)]> (st.1) in
    np ← getitem new_prob p;
    pp ← getitem prev_prob p;
    Ok (new_prob, pymax (st.2) (PrimFloat.abs (PrimFloat.sub np pp))))
    (new_prob, PrimFloat.zero).

(** The [while max_diff > 0.001] loop; [None] when [fuel] passes were not
    enough to leave it. *)
Fixpoint while_loop (fuel : nat) (corpus : list (page * gset page))
    (damping_factor total_pages : float) (new_prob prev_prob : gmap page float)
    (max_diff : float) : option (result (gmap page float)) :=
  if PrimFloat.ltb threshold max_diff then
    match fuel with
    | O => None
    | S fuel' =>
        let prev_prob := new_prob in
        match update_pass corpus damping_factor total_pages prev_prob new_prob with
        | Raise e => Some (Raise e)
        | Ok st =>
            while_loop fuel' corpus damping_factor total_pages (st.1) prev_prob (st.2)
        end
    end
  else Some (Ok new_prob).

Definition iterate_init (corpus : list (page * gset page)) (total_pages : float)
  : result (gmap page float * gmap page float) :=
  for_in (corpus_keys corpus) (fun p st =>
    v ← truediv PrimFloat.one total_pages;
    Ok (<[p := v]> (st.1), <[p := PrimFloat.opp PrimFloat.one]> (st.2))) (∅, ∅).

Definition iterate_pagerank (fuel : nat) (corpus : list (page * gset page))
    (damping_factor : float) : option (result (gmap page float)) :=
  let total_pages := of_len (length corpus) in
  let max_diff := initial_max_diff in
  match iterate_init corpus total_pages with
  | Raise e => Some (Raise e)
  | Ok st =>
      while_loop fuel corpus damping_factor total_pages (st.1) (st.2) max_diff
  end.

End Binary64.

(** The corpus [{A: {B}, B: {C}, C: {A}, D: {A}}], in this order. *)
Definition spiral_corpus : list (page * gset page) :=
  [("A"%string, {["B"%string]}); ("B"%string, {["C"%string]});
   ("C"%string, {["A"%string]}); ("D"%string, {["A"%string]})].

(** The float [0.9999999999999999], the largest below 1. *)
Definition almost_one : float := 0x1.fffffffffffffp-1%float.

(** The ranks [{A: a, B: b, C: c, D: 2^-55}]. *)
Definition spiral_ranks (a b c : float) : gmap page float :=
  <["A"%string := a]> (<["B"%string := b]> (<["C"%string := c]>
    (<["D"%string := 0x1p-55%float]> ∅))).

(** The float [0.85]. *)
Definition float_085 : float := 0x1.b333333333333p-1%float.

(** The corpus [{A: {}, B: {A}}], in this order. *)
Definition dangling_list : list (page * gset page) :=
  [("A"%string, ∅); ("B"%string, {["A"%string]})].

(** * Properties *)

(** One step of the error monad. *)
Ltac monad_step := cbn [mbind result_bind].

(** ** The error monad and loops *)

Lemma truediv_ok (a b : Q) : ~ b == 0 -> truediv a b = Ok (a / b).
Proof.
  intros Hb. unfold truediv.
  destruct (Qeq_bool b 0) eqn:E; [|reflexivity].
  apply Qeq_bool_eq in E. contradiction.
Qed.

Lemma getitem_ok {V : Type} (d : gmap page V) (k : page) (v : V) :
  d !! k = Some v -> getitem d k = Ok v.
Proof. intros H. unfold getitem. by rewrite H. Qed.

(** A loop invariant rule for [for_in]: [Inv done st] relates the state to the
    elements already visited. *)
Lemma for_in_inv {A S : Type} (Inv : list A -> S -> Prop)
    (xs : list A) (body : A -> S -> result S) (st0 : S) :
  Inv [] st0 ->
  (forall done x rest st, xs = done ++ x :: rest -> Inv done st ->
     exists st', body x st = Ok st' /\ Inv (done ++ [x]) st') ->
  exists st, for_in xs body st0 = Ok st /\ Inv xs st.
Proof.
  intros H0 Hstep.
  assert (G : forall rest done st, xs = done ++ rest -> Inv done st ->
            exists st', for_in rest body st = Ok st' /\ Inv xs st').
  { induction rest as [|x rest IH]; intros done st Hxs Hinv.
    - exists st. rewrite app_nil_r in Hxs. by subst.
    - destruct (Hstep done x rest st Hxs Hinv) as (st' & Hb & Hinv').
      destruct (IH (done ++ [x]) st') as (st'' & Hf & Hinv''); [|done|].
      + by rewrite <- app_assoc.
      + exists st''. split; [|done]. simpl. by rewrite Hb. }
  by apply (G xs [] st0).
Qed.

(** ** Evaluations of the model *)

Example transition_model_on_B :
  transition_model dangling_corpus "B" (85 # 100)
  = Ok (<["A"%string := 18500 # 20000]> (<["B"%string := 15 # 200]> ∅)).
Proof. vm_compute. reflexivity. Qed.

Example transition_model_missing_page :
  transition_model dangling_corpus "C" (85 # 100) = Raise KeyError.
Proof. vm_compute. reflexivity. Qed.

(** Five draws whose [random()] values are 0, 1/5, ..., 4/5: four visits of
    [A] and one of [B]. *)
Example sample_pagerank_five_draws :
  sample_pagerank dangling_corpus (85 # 100) 5
    (fun i => inject_Z (Z.of_nat i) / 5)
  = Ok (<["A"%string := 4 # 5]> (<["B"%string := 1 # 5]> ∅)).
Proof. vm_compute. reflexivity. Qed.

Example sample_pagerank_no_draw :
  sample_pagerank dangling_corpus (85 # 100) 0 (fun _ => 0)
  = Raise ZeroDivisionError.
Proof. vm_compute. reflexivity. Qed.

(** On the cycle the uniform ranks are a fixed point: one pass, and every
    page has rank 1/3. *)
Example iterate_pagerank_cycle :
  iterate_pagerank 1 cycle_corpus (85 # 100)
  = Some (Ok (<["A"%string := 30000 # 90000]>
               (<["B"%string := 30000 # 90000]>
                 (<["C"%string := 30000 # 90000]> ∅)))).
Proof. vm_compute. reflexivity. Qed.

(** On [{A: {}, B: {A}}] three passes are not enough, ten are. *)
Example iterate_pagerank_fuel :
  iterate_pagerank 3 dangling_corpus (85 # 100) = None /\
  exists r, iterate_pagerank 10 dangling_corpus (85 # 100) = Some (Ok r).
Proof. split; [vm_compute; reflexivity|]. eexists. vm_compute. reflexivity. Qed.

(** ** Keys of a dictionary *)

Lemma NoDup_keys {V : Type} (d : gmap page V) : NoDup (keys d).
Proof. apply NoDup_fst_map_to_list. Qed.

Lemma elem_of_keys {V : Type} (d : gmap page V) (k : page) :
  k ∈ keys d <-> is_Some (d !! k).
Proof.
  unfold keys. rewrite list_elem_of_fmap. split.
  - intros ([k' v] & -> & Hin). apply elem_of_map_to_list in Hin. eauto.
  - intros [v Hv]. exists (k, v). split; [done|]. by apply elem_of_map_to_list.
Qed.

Lemma elem_of_keys_dom {V : Type} (d : gmap page V) (k : page) :
  k ∈ keys d <-> k ∈ dom d.
Proof. by rewrite elem_of_keys, elem_of_dom. Qed.

Lemma length_keys {V : Type} (d : gmap page V) : length (keys d) = size d.
Proof. unfold keys. rewrite length_fmap. apply length_map_to_list. Qed.

Lemma length_values {V : Type} (d : gmap page V) : length (values d) = size d.
Proof. unfold values. rewrite length_fmap. apply length_map_to_list. Qed.

Lemma keys_split_notin {V : Type} (d : gmap page V) done x rest :
  keys d = done ++ x :: rest -> (x ∉ done) /\ (x ∈ keys d).
Proof.
  intros H. pose proof (NoDup_keys d) as Hnd. rewrite H in Hnd |- *.
  apply NoDup_app in Hnd as (_ & Hd & _). split.
  - intros Hx. apply (Hd x Hx). left.
  - apply elem_of_app. right. left.
Qed.

(** ** Sums of rationals *)

Lemma of_len_S (n : nat) : of_len (S n) == of_len n + 1.
Proof.
  unfold of_len. rewrite Nat2Z.inj_succ, <- Z.add_1_r, inject_Z_plus.
  reflexivity.
Qed.

Lemma of_len_nonneg (n : nat) : 0 <= of_len n.
Proof.
  unfold of_len. change 0 with (inject_Z 0). rewrite <- Zle_Qle. lia.
Qed.

Lemma of_len_pos (n : nat) : (0 < n)%nat -> 0 < of_len n.
Proof.
  intros H. unfold of_len. change 0 with (inject_Z 0). rewrite <- Zlt_Qlt. lia.
Qed.

Lemma of_len_eq_0 (n : nat) : of_len n == 0 <-> n = O.
Proof.
  unfold of_len. change 0 with (inject_Z 0). rewrite inject_Z_injective. lia.
Qed.

Lemma of_len_eq_bool (n : nat) :
  Qeq_bool (of_len n) 0 = if decide (n = O) then true else false.
Proof.
  destruct (decide (n = O)) as [->|Hn]; [reflexivity|].
  apply not_true_is_false. intros E. apply Qeq_bool_eq in E.
  by apply of_len_eq_0 in E.
Qed.

Lemma sumQ_cons (x : Q) (l : list Q) : sumQ (x :: l) = x + sumQ l.
Proof. reflexivity. Qed.

Lemma sumQ_app (l1 l2 : list Q) : sumQ (l1 ++ l2) == sumQ l1 + sumQ l2.
Proof.
  induction l1 as [|x l1 IH].
  - change (sumQ ([] ++ l2)) with (sumQ l2). change (sumQ []) with 0. ring.
  - change (sumQ ((x :: l1) ++ l2)) with (x + sumQ (l1 ++ l2)).
    rewrite sumQ_cons, IH. ring.
Qed.

Lemma sumQ_Permutation (l1 l2 : list Q) : l1 ≡ₚ l2 -> sumQ l1 == sumQ l2.
Proof.
  induction 1 as [|x l1 l2 _ IH|x y l|l1 l2 l3 _ IH1 _ IH2].
  - reflexivity.
  - rewrite !sumQ_cons, IH. reflexivity.
  - rewrite !sumQ_cons. ring.
  - by rewrite IH1.
Qed.

Lemma sum_over_nil (f : page -> Q) : sum_over [] f = 0.
Proof. reflexivity. Qed.

Lemma sum_over_cons (k : page) (ks : list page) (f : page -> Q) :
  sum_over (k :: ks) f = f k + sum_over ks f.
Proof. reflexivity. Qed.

Lemma sum_over_ext (ks : list page) (f g : page -> Q) :
  (forall k, k ∈ ks -> f k == g k) -> sum_over ks f == sum_over ks g.
Proof.
  induction ks as [|k ks IH]; intros H; [reflexivity|].
  rewrite !sum_over_cons, IH, (H k).
  - reflexivity.
  - left.
  - intros k' Hk'. apply H. by right.
Qed.

Lemma sum_over_le (ks : list page) (f g : page -> Q) :
  (forall k, k ∈ ks -> f k <= g k) -> sum_over ks f <= sum_over ks g.
Proof.
  induction ks as [|k ks IH]; intros H; [apply Qle_refl|].
  rewrite !sum_over_cons. apply Qplus_le_compat.
  - apply H. left.
  - apply IH. intros k' Hk'. apply H. by right.
Qed.

Lemma sum_over_nonneg (ks : list page) (f : page -> Q) :
  (forall k, k ∈ ks -> 0 <= f k) -> 0 <= sum_over ks f.
Proof.
  induction ks as [|k ks IH]; intros H; [apply Qle_refl|].
  rewrite sum_over_cons.
  assert (0 <= f k) by (apply H; left).
  assert (0 <= sum_over ks f) by (apply IH; intros k' Hk'; apply H; by right).
  lra.
Qed.

Lemma sum_over_plus (ks : list page) (f g : page -> Q) :
  sum_over ks (fun k => f k + g k) == sum_over ks f + sum_over ks g.
Proof.
  induction ks as [|k ks IH]; [reflexivity|].
  rewrite !sum_over_cons, IH. ring.
Qed.

Lemma sum_over_scale (ks : list page) (c : Q) (f : page -> Q) :
  sum_over ks (fun k => c * f k) == c * sum_over ks f.
Proof.
  induction ks as [|k ks IH]; [rewrite !sum_over_nil; ring|].
  rewrite !sum_over_cons, IH. ring.
Qed.

Lemma sum_over_const (ks : list page) (c : Q) :
  sum_over ks (fun _ => c) == of_len (length ks) * c.
Proof.
  induction ks as [|k ks IH]; [rewrite sum_over_nil; reflexivity|].
  rewrite sum_over_cons, IH. cbn [length]. rewrite of_len_S. ring.
Qed.

(** Exchange of the order of summation. *)
Lemma sum_over_swap (ks ls : list page) (f : page -> page -> Q) :
  sum_over ks (fun k => sum_over ls (fun l => f k l))
  == sum_over ls (fun l => sum_over ks (fun k => f k l)).
Proof.
  induction ks as [|k ks IH].
  - rewrite sum_over_nil. symmetry.
    rewrite (sum_over_ext ls _ (fun _ => 0)) by (intros; reflexivity).
    rewrite sum_over_const. ring.
  - rewrite sum_over_cons, IH, <- sum_over_plus.
    apply sum_over_ext. intros l _. reflexivity.
Qed.

(** A sum of [a + b] over the pages satisfying [P] and of [a] over the others. *)
Lemma sum_over_indicator (ks : list page) (P : page -> Prop)
    `{!forall k, Decision (P k)} (a b : Q) :
  sum_over ks (fun k => if decide (P k) then a + b else a)
  == of_len (length ks) * a + of_len (length (filter P ks)) * b.
Proof.
  induction ks as [|k ks IH]; [rewrite sum_over_nil; reflexivity|].
  rewrite sum_over_cons, IH. cbn [length]. rewrite of_len_S, filter_cons.
  destruct (decide (P k)); cbn [length]; rewrite ?of_len_S; ring.
Qed.

(** The keys that belong to a set of links, all of which are keys. *)
Lemma length_filter_links (ks : list page) (links : gset page) :
  NoDup ks -> (forall k, k ∈ links -> k ∈ ks) ->
  length (filter (fun k => k ∈ links) ks) = size links.
Proof.
  intros Hnd Hsub. unfold size, set_size. simpl. apply Permutation_length.
  apply NoDup_Permutation.
  - by apply NoDup_filter.
  - apply NoDup_elements.
  - intros k. rewrite list_elem_of_filter, elem_of_elements.
    split; [by intros [? ?]|auto].
Qed.

Lemma length_filter_links_le (ks : list page) (links : gset page) :
  NoDup ks -> (length (filter (fun k => k ∈ links) ks) <= size links)%nat.
Proof.
  intros Hnd. unfold size, set_size. simpl.
  apply submseteq_length, NoDup_submseteq.
  - by apply NoDup_filter.
  - intros k. rewrite list_elem_of_filter, elem_of_elements. by intros [? ?].
Qed.

(** ** Dictionaries built by a loop over the keys *)

Lemma for_in_build (f : page -> Q) (ks : list page)
    (body : page -> gmap page Q -> result (gmap page Q)) (m0 : gmap page Q) :
  (forall i m, i ∈ ks -> body i m = Ok (<[i := f i]> m)) ->
  exists m, for_in ks body m0 = Ok m /\
    forall k, m !! k = if decide (k ∈ ks) then Some (f k) else m0 !! k.
Proof.
  revert m0. induction ks as [|x ks IH]; intros m0 Hbody.
  - exists m0. split; [reflexivity|]. intros k.
    destruct (decide (k ∈ [])) as [H|_]; [by apply elem_of_nil in H|done].
  - destruct (IH (<[x := f x]> m0)) as (m & Hm & Hlook).
    { intros i m' Hi. apply Hbody. by right. }
    exists m. split.
    + simpl. rewrite Hbody by left. exact Hm.
    + intros k. rewrite Hlook.
      destruct (decide (k ∈ ks)) as [Hk|Hk].
      * rewrite decide_True; [done|by right].
      * destruct (decide (k = x)) as [->|Hne].
        -- rewrite decide_True by left. apply lookup_insert_eq.
        -- rewrite decide_False.
           ++ by apply lookup_insert_ne.
           ++ intros [?|?]%elem_of_cons; done.
Qed.

Lemma tabulates_dom (m : gmap page Q) {V : Type} (d : gmap page V) f :
  tabulates m (keys d) f -> dom m = dom d.
Proof.
  intros H. apply set_eq. intros k. rewrite !elem_of_dom, H.
  destruct (decide (k ∈ keys d)) as [Hk|Hk].
  - apply elem_of_keys in Hk. split; eauto.
  - rewrite elem_of_keys in Hk. split; [by intros [? ?]|done].
Qed.

Lemma tabulates_to_list (m : gmap page Q) (ks : list page) f :
  NoDup ks -> tabulates m ks f ->
  map_to_list m ≡ₚ (fun k => (k, f k)) <$> ks.
Proof.
  intros Hnd H. apply NoDup_Permutation.
  - apply NoDup_map_to_list.
  - apply NoDup_fmap_2; [|done]. intros k1 k2 E. by inversion E.
  - intros [k v]. rewrite elem_of_map_to_list, H, list_elem_of_fmap.
    destruct (decide (k ∈ ks)) as [Hk|Hk].
    + split.
      * intros [= <-]. by exists k.
      * intros (k' & [= -> ->] & _). done.
    + split; [done|]. intros (k' & [= -> ->] & ?). done.
Qed.

Lemma tabulates_sum (m : gmap page Q) (ks : list page) f :
  NoDup ks -> tabulates m ks f -> dist_sum m == sum_over ks f.
Proof.
  intros Hnd H. unfold dist_sum, values, sum_over.
  rewrite (sumQ_Permutation _ (((fun k => (k, f k)) <$> ks).*2)).
  - by rewrite <- list_fmap_compose.
  - apply fmap_Permutation. by apply tabulates_to_list.
Qed.

Lemma tabulates_size (m : gmap page Q) (ks : list page) f :
  NoDup ks -> tabulates m ks f -> size m = length ks.
Proof.
  intros Hnd H. rewrite <- length_map_to_list.
  rewrite (Permutation_length (tabulates_to_list m ks f Hnd H)).
  apply length_fmap.
Qed.

(** ** transition_model *)

Lemma size_corpus_pos {V : Type} (corpus : gmap page V) (p : page) :
  is_Some (corpus !! p) -> (0 < size corpus)%nat.
Proof.
  intros [v Hv]. destruct (decide (size corpus = O)) as [E|]; [|lia].
  apply map_size_empty_iff in E. subst. by rewrite lookup_empty in Hv.
Qed.

Lemma size_corpus_nonzero {V : Type} (corpus : gmap page V) (p : page) :
  is_Some (corpus !! p) -> ~ of_len (size corpus) == 0.
Proof.
  intros H E. apply of_len_eq_0 in E. apply size_corpus_pos in H. lia.
Qed.

Lemma transition_model_spec (corpus : gmap page (gset page)) (p : page)
    (links : gset page) (d : Q) :
  corpus !! p = Some links ->
  exists m, transition_model corpus p d = Ok m /\
    tabulates m (keys corpus) (transition_value corpus links d).
Proof.
  intros Hp. unfold transition_model.
  rewrite (getitem_ok _ _ _ Hp). monad_step.
  assert (HN : ~ of_len (size corpus) == 0) by (apply (size_corpus_nonzero _ p); eauto).
  rewrite of_len_eq_bool. unfold tabulates, transition_value.
  destruct (decide (size links = O)) as [HL|HL].
  - match goal with |- context [for_in _ ?b ?m0] =>
      destruct (for_in_build (fun _ => 1 / of_len (size corpus)) (keys corpus) b m0)
        as (m & Hm & Hlook); [|exists m; split; [exact Hm|]]
    end.
    + intros i m _. by rewrite truediv_ok.
    + intros k. rewrite Hlook, lookup_empty. done.
  - match goal with |- context [for_in _ ?b ?m0] =>
      destruct (for_in_build
        (fun q => if decide (q ∈ links)
                  then (1 - d) / of_len (size corpus) + d / of_len (size links)
                  else (1 - d) / of_len (size corpus)) (keys corpus) b m0)
        as (m & Hm & Hlook); [|exists m; split; [exact Hm|]]
    end.
    + intros i m _. monad_step.
      assert (~ of_len (size links) == 0) by (by rewrite of_len_eq_0).
      destruct (decide (i ∈ links)); by rewrite !truediv_ok.
    + intros k. rewrite Hlook, lookup_empty. done.
Qed.

(** C2: when the current page [p] has [L > 0] outgoing links,
    [transition_model] gives every page [q] of the corpus exactly
    [(1 - d)/N + d/L] if [q] is in the outgoing set of [p], and [(1 - d)/N]
    otherwise, where [N] is the number of pages. *)
Theorem transition_model_linked (corpus : gmap page (gset page)) (p : page)
    (links : gset page) (d : Q) :
  corpus !! p = Some links -> (0 < size links)%nat ->
  exists m, transition_model corpus p d = Ok m /\
    forall q, q ∈ dom corpus ->
      m !! q = Some (if decide (q ∈ links)
                     then (1 - d) / of_len (size corpus) + d / of_len (size links)
                     else (1 - d) / of_len (size corpus)).
Proof.
  intros Hp HL. destruct (transition_model_spec corpus p links d Hp) as (m & Hm & Ht).
  exists m. split; [done|]. intros q Hq. rewrite Ht.
  apply elem_of_keys_dom in Hq. rewrite decide_True by done.
  unfold transition_value. rewrite decide_False by lia. done.
Qed.

Lemma transition_model_linked_witness :
  exists m, transition_model dangling_corpus "B" (85 # 100) = Ok m /\
    m !! "A"%string = Some ((1 - (85 # 100)) / 2 + (85 # 100) / 1) /\
    m !! "B"%string = Some ((1 - (85 # 100)) / 2).
Proof.
  destruct (transition_model_linked dangling_corpus "B" {["A"%string]} (85 # 100))
    as (m & Hm & Hv); [reflexivity|vm_compute; lia|].
  exists m. split; [exact Hm|]. split.
  - rewrite (Hv "A"%string) by (vm_compute; reflexivity). reflexivity.
  - rewrite (Hv "B"%string) by (vm_compute; reflexivity). reflexivity.
Defined.

(** C3: when the current page [p] has no outgoing link, [transition_model]
    returns the uniform distribution: its keys are the pages of the corpus and
    every page has the value [1/N].  On [{A: {}, B: {A}}] and page [A] the
    result is [{A: 1/2, B: 1/2}]. *)
Theorem transition_model_dangling :
  (forall (corpus : gmap page (gset page)) (p : page) (links : gset page) (d : Q),
     corpus !! p = Some links -> size links = O ->
     exists m, transition_model corpus p d = Ok m /\
       dom m = dom corpus /\
       forall q, q ∈ dom corpus -> m !! q = Some (1 / of_len (size corpus))) /\
  transition_model dangling_corpus "A" (85 # 100)
  = Ok (<["A"%string := 1 # 2]> (<["B"%string := 1 # 2]> ∅)).
Proof.
  split; [|vm_compute; reflexivity].
  intros corpus p links d Hp HL.
  destruct (transition_model_spec corpus p links d Hp) as (m & Hm & Ht).
  exists m. split; [done|]. split; [by eapply tabulates_dom|].
  intros q Hq. rewrite Ht.
  apply elem_of_keys_dom in Hq. rewrite decide_True by done.
  unfold transition_value. by rewrite decide_True.
Qed.

Lemma transition_model_dangling_witness :
  exists m, transition_model dangling_corpus "A" (85 # 100) = Ok m /\
    dom m = dom dangling_corpus /\
    m !! "B"%string = Some (1 / of_len (size dangling_corpus)).
Proof.
  destruct (proj1 transition_model_dangling dangling_corpus "A" ∅ (85 # 100))
    as (m & Hm & Hdom & Hv); [reflexivity|reflexivity|].
  exists m. split; [exact Hm|]. split; [exact Hdom|].
  apply Hv. apply elem_of_dom. vm_compute. eauto.
Defined.

Lemma transition_value_sum (corpus : gmap page (gset page)) (p : page)
    (links : gset page) (d : Q) :
  corpus !! p = Some links -> links ⊆ dom corpus ->
  sum_over (keys corpus) (transition_value corpus links d) == 1.
Proof.
  intros Hp Hsub.
  assert (HN : ~ of_len (size corpus) == 0) by (apply (size_corpus_nonzero _ p); eauto).
  unfold transition_value. destruct (decide (size links = O)) as [HL|HL].
  - rewrite sum_over_const, length_keys. by field.
  - rewrite (sum_over_indicator (keys corpus) (fun q => q ∈ links)).
    rewrite length_filter_links, length_keys.
    + assert (~ of_len (size links) == 0) by (by rewrite of_len_eq_0).
      by field.
    + apply NoDup_keys.
    + intros k Hk. apply elem_of_keys_dom. by apply Hsub.
Qed.

(** C1: on a non-empty corpus in which every linked page is a key, for a page
    [p] of the corpus and a damping factor in (0, 1), the values returned by
    [transition_model] sum to 1 (numbers are exact rationals; the rounding of
    floating-point operations is not modelled). *)
Theorem transition_model_sums_to_one (corpus : gmap page (gset page))
    (p : page) (d : Q) :
  corpus ≠ ∅ -> corpus_invariant corpus -> p ∈ dom corpus -> 0 < d < 1 ->
  exists m, transition_model corpus p d = Ok m /\ dist_sum m == 1.
Proof.
  intros _ Hinv Hp _. apply elem_of_dom in Hp as [links Hp].
  destruct (transition_model_spec corpus p links d Hp) as (m & Hm & Ht).
  exists m. split; [done|].
  rewrite (tabulates_sum m (keys corpus) _ (NoDup_keys corpus) Ht).
  apply (transition_value_sum corpus p); [done|]. by apply (Hinv p).
Qed.

Lemma dangling_corpus_invariant : corpus_invariant dangling_corpus.
Proof.
  intros p links Hp k Hk. unfold dangling_corpus in *.
  apply elem_of_dom.
  destruct (decide (p = "A"%string)) as [->|HA].
  - rewrite lookup_insert_eq in Hp. injection Hp as <-. set_solver.
  - rewrite lookup_insert_ne in Hp by done.
    destruct (decide (p = "B"%string)) as [->|HB].
    + rewrite lookup_insert_eq in Hp. injection Hp as <-.
      apply elem_of_singleton in Hk as ->. by rewrite lookup_insert_eq.
    + rewrite lookup_insert_ne in Hp by done. by rewrite lookup_empty in Hp.
Qed.

Lemma transition_model_sums_to_one_witness :
  exists m, transition_model dangling_corpus "B" (85 # 100) = Ok m /\
    dist_sum m == 1.
Proof.
  apply (transition_model_sums_to_one dangling_corpus "B" (85 # 100)).
  - intros E. apply (f_equal (fun m => m !! "A"%string)) in E. vm_compute in E.
    discriminate.
  - apply dangling_corpus_invariant.
  - apply elem_of_dom. vm_compute. eauto.
  - split; reflexivity.
Defined.

(** ** random.choices *)

Lemma length_accumulate_from (acc : Q) (ws : list Q) :
  length (accumulate_from acc ws) = length ws.
Proof. revert acc. induction ws as [|w ws IH]; intros acc; simpl; auto. Qed.

Lemma length_accumulate (ws : list Q) : length (accumulate ws) = length ws.
Proof. destruct ws; simpl; [done|]. by rewrite length_accumulate_from. Qed.

Lemma accumulate_from_pos (acc : Q) (ws : list Q) :
  0 <= acc -> Forall (fun w => 0 < w) ws ->
  Forall (fun c => 0 < c) (accumulate_from acc ws).
Proof.
  revert acc. induction ws as [|w ws IH]; intros acc Hacc Hws; simpl.
  - constructor.
  - inversion Hws as [|? ? Hw Hws']; subst. constructor; [lra|].
    apply IH; [lra|done].
Qed.

Lemma accumulate_pos (ws : list Q) :
  Forall (fun w => 0 < w) ws -> Forall (fun c => 0 < c) (accumulate ws).
Proof.
  destruct ws as [|w ws]; intros Hws; simpl; [constructor|].
  inversion Hws as [|? ? Hw Hws']; subst. constructor; [done|].
  apply accumulate_from_pos; [lra|done].
Qed.

Lemma list_getitem_ok {A : Type} (l : list A) (i : nat) :
  (i < length l)%nat -> exists x, list_getitem l i = Ok x /\ x ∈ l.
Proof.
  intros Hi. destruct (lookup_lt_is_Some_2 l i Hi) as [x Hx].
  exists x. unfold list_getitem. rewrite Hx. split; [done|].
  by eapply list_elem_of_lookup_2.
Qed.

(** [bisect] returns an index between [lo] and [hi], whatever [x] is. *)
Lemma bisect_ok (a : list Q) (x : Q) (lo hi : nat) :
  (lo <= hi)%nat -> (hi <= length a)%nat ->
  exists idx, bisect a x lo hi = Ok idx /\ (lo <= idx <= hi)%nat.
Proof.
  funelim (bisect a x lo hi); intros Hlo Hhi.
  - exists lo. split; [done|lia].
  - exfalso.
    assert (Hmid : ((lo + hi) / 2 < length a)%nat).
    { pose proof (Nat.div_mod_eq (lo + hi) 2).
      pose proof (Nat.mod_upper_bound (lo + hi) 2). lia. }
    destruct (list_getitem_ok a _ Hmid) as (y & Hy & _). congruence.
  - pose proof (Nat.div_mod_eq (lo + hi) 2).
    pose proof (Nat.mod_upper_bound (lo + hi) 2).
    destruct H as (idx & Hidx & Hrange); [lia|lia|].
    exists idx. split; [done|lia].
  - pose proof (Nat.div_mod_eq (lo + hi) 2).
    pose proof (Nat.mod_upper_bound (lo + hi) 2).
    destruct H as (idx & Hidx & Hrange); [lia|lia|].
    exists idx. split; [done|lia].
Qed.

(** With as many positive weights as pages, and at least one page,
    [choices] returns a page of the population, whatever [u] is. *)
Lemma choices_ok (population : list page) (weights : list Q) (u : Q) :
  length weights = length population -> (0 < length population)%nat ->
  Forall (fun w => 0 < w) weights ->
  exists pg, choices population weights u = Ok pg /\ pg ∈ population.
Proof.
  intros Hlen Hne Hpos. unfold choices.
  rewrite decide_True by (by rewrite length_accumulate).
  destruct (list_getitem_ok (accumulate weights) (length (accumulate weights) - 1))
    as (total & Htot & Hin); [rewrite length_accumulate; lia|].
  rewrite Htot. monad_step.
  assert (Ht : 0 < total).
  { pose proof (accumulate_pos weights Hpos) as HF.
    rewrite Forall_forall in HF. by apply HF. }
  destruct (Qle_bool total 0) eqn:E.
  { apply Qle_bool_iff in E. lra. }
  destruct (bisect_ok (accumulate weights) (u * total) 0 (length population - 1))
    as (idx & Hidx & Hrange); [lia|rewrite length_accumulate; lia|].
  rewrite Hidx. monad_step.
  apply list_getitem_ok. lia.
Qed.

(** ** sample_pagerank *)

Lemma Qdiv_pos (a b : Q) : 0 < a -> 0 < b -> 0 < a / b.
Proof. intros Ha Hb. apply Qlt_shift_div_l; [done|]. lra. Qed.

Lemma Qdiv_nonneg (a b : Q) : 0 <= a -> 0 < b -> 0 <= a / b.
Proof. intros Ha Hb. apply Qle_shift_div_l; [done|]. lra. Qed.

Lemma transition_value_pos (corpus : gmap page (gset page)) (links : gset page)
    (d : Q) (q : page) :
  (0 < size corpus)%nat -> 0 < d < 1 -> 0 < transition_value corpus links d q.
Proof.
  intros HN [Hd0 Hd1]. apply of_len_pos in HN. unfold transition_value.
  destruct (decide (size links = O)) as [HL|HL].
  - apply Qdiv_pos; lra.
  - assert (0 < of_len (size links)) by (apply of_len_pos; lia).
    assert (0 < (1 - d) / of_len (size corpus)) by (apply Qdiv_pos; lra).
    assert (0 < d / of_len (size links)) by (apply Qdiv_pos; lra).
    destruct (decide (q ∈ links)); lra.
Qed.

Lemma tabulates_nil (f : page -> Q) : tabulates ∅ [] f.
Proof. intros k. rewrite lookup_empty. by rewrite decide_False by apply not_elem_of_nil. Qed.

Lemma tabulates_ext (m : gmap page Q) (ks : list page) (f g : page -> Q) :
  (forall k, k ∈ ks -> f k = g k) -> tabulates m ks f -> tabulates m ks g.
Proof.
  intros Hfg H k. rewrite H. destruct (decide (k ∈ ks)); [|done]. by rewrite Hfg.
Qed.

Lemma tabulates_snoc (m : gmap page Q) (done : list page) (x : page)
    (f : page -> Q) :
  tabulates m done f -> tabulates (<[x := f x]> m) (done ++ [x]) f.
Proof.
  intros H k. destruct (decide (k = x)) as [->|Hne].
  - rewrite lookup_insert_eq, decide_True; [done|].
    apply elem_of_app. right. left.
  - rewrite lookup_insert_ne, H by done.
    destruct (decide (k ∈ done)) as [Hk|Hk].
    + rewrite decide_True; [done|]. apply elem_of_app. by left.
    + rewrite decide_False; [done|].
      intros [?|Hx%list_elem_of_singleton]%elem_of_app; done.
Qed.

Lemma tabulates_insert (m : gmap page Q) (ks : list page) (x : page) (v : Q)
    (f : page -> Q) :
  x ∈ ks -> tabulates m ks f ->
  tabulates (<[x := v]> m) ks (fun k => if decide (k = x) then v else f k).
Proof.
  intros Hx H k. destruct (decide (k = x)) as [->|Hne].
  - by rewrite lookup_insert_eq, decide_True.
  - by rewrite lookup_insert_ne, H.
Qed.

Lemma tabulates_values_Forall (m : gmap page Q) (ks : list page) (f : page -> Q)
    (P : Q -> Prop) :
  tabulates m ks f -> (forall k, k ∈ ks -> P (f k)) -> Forall P (values m).
Proof.
  intros H HP. apply Forall_forall. intros v Hv. unfold values in Hv.
  apply list_elem_of_fmap in Hv as ([k v'] & -> & Hin).
  apply elem_of_map_to_list in Hin. rewrite H in Hin.
  destruct (decide (k ∈ ks)); [|done]. injection Hin as <-. by apply HP.
Qed.

Lemma tabulates_keys (m : gmap page Q) (ks : list page) (f : page -> Q) (k : page) :
  tabulates m ks f -> k ∈ keys m <-> k ∈ ks.
Proof.
  intros H. rewrite elem_of_keys, H.
  destruct (decide (k ∈ ks)); split; try done; eauto.
Qed.

Lemma count_sum_cons (k : page) (ks : list page) (cnt : page -> Z) :
  count_sum (k :: ks) cnt = (cnt k + count_sum ks cnt)%Z.
Proof. reflexivity. Qed.

Lemma count_sum_zero (ks : list page) : count_sum ks (fun _ => 0%Z) = 0%Z.
Proof. induction ks as [|k ks IH]; [done|]. by rewrite count_sum_cons, IH. Qed.

Lemma count_sum_ext (ks : list page) (c1 c2 : page -> Z) :
  (forall k, k ∈ ks -> c1 k = c2 k) -> count_sum ks c1 = count_sum ks c2.
Proof.
  induction ks as [|k ks IH]; intros H; [done|].
  rewrite !count_sum_cons, IH, (H k); [done|left|].
  intros k' Hk'. apply H. by right.
Qed.

(** One more visit of a page of [ks] adds one to the total. *)
Lemma count_sum_incr (ks : list page) (cnt : page -> Z) (x : page) :
  NoDup ks -> x ∈ ks ->
  count_sum ks (fun k => if decide (k = x) then (cnt k + 1)%Z else cnt k)
  = (count_sum ks cnt + 1)%Z.
Proof.
  induction ks as [|k ks IH]; intros Hnd Hx; [by apply elem_of_nil in Hx|].
  apply NoDup_cons in Hnd as [Hk Hnd]. rewrite !count_sum_cons.
  destruct (decide (k = x)) as [->|Hne].
  - rewrite (count_sum_ext ks _ cnt); [lia|].
    intros k' Hk'. rewrite decide_False; [done|]. by intros ->.
  - apply elem_of_cons in Hx as [->|Hx]; [done|]. rewrite IH by done. lia.
Qed.

Lemma count_sum_nonneg (ks : list page) (cnt : page -> Z) :
  (forall k, 0 <= cnt k)%Z -> (0 <= count_sum ks cnt)%Z.
Proof.
  intros Hpos. induction ks as [|k ks IH]; [done|].
  rewrite count_sum_cons. specialize (Hpos k). lia.
Qed.

Lemma count_sum_bound (ks : list page) (cnt : page -> Z) (x : page) :
  (forall k, 0 <= cnt k)%Z -> x ∈ ks -> (cnt x <= count_sum ks cnt)%Z.
Proof.
  intros Hpos. induction ks as [|k ks IH]; intros Hx; [by apply elem_of_nil in Hx|].
  rewrite count_sum_cons.
  pose proof (count_sum_nonneg ks cnt Hpos).
  apply elem_of_cons in Hx as [->|Hx].
  - lia.
  - specialize (IH Hx). specialize (Hpos k). lia.
Qed.

Lemma sum_over_inject_Z (ks : list page) (cnt : page -> Z) :
  sum_over ks (fun k => inject_Z (cnt k)) == inject_Z (count_sum ks cnt).
Proof.
  induction ks as [|k ks IH]; [reflexivity|].
  rewrite sum_over_cons, count_sum_cons, inject_Z_plus, IH. reflexivity.
Qed.

Lemma count_inv_init (corpus : gmap page (gset page)) (sd : gmap page Q) :
  tabulates sd (keys corpus) (fun _ => 0) -> count_inv corpus [] sd.
Proof.
  intros H. exists (fun _ => 0), (fun _ => 0%Z). split; [done|].
  split; [reflexivity|]. split; [done|]. apply count_sum_zero.
Qed.

(** [sample_dist[current_page] += 1] for a page of the corpus. *)
Lemma count_step (corpus : gmap page (gset page)) (done : list nat)
    (sd : gmap page Q) (pg : page) (i : nat) :
  count_inv corpus done sd -> pg ∈ keys corpus ->
  exists c, getitem sd pg = Ok c /\
    count_inv corpus (done ++ [i]) (<[pg := c + 1]> sd).
Proof.
  intros (cq & cnt & Hcq & Hcnt & Hnn & Hsum) Hin.
  pose proof (NoDup_keys corpus) as Hnd.
  assert (Hc : sd !! pg = Some (cq pg)) by (by rewrite Hcq, decide_True).
  exists (cq pg). split; [by apply getitem_ok|].
  exists (fun k => if decide (k = pg) then cq pg + 1 else cq k),
    (fun k => if decide (k = pg) then (cnt k + 1)%Z else cnt k).
  split; [by apply tabulates_insert|]. split; [|split].
  - intros k Hk. destruct (decide (k = pg)) as [->|_]; [|by apply Hcnt].
    rewrite inject_Z_plus, (Hcnt pg Hin). reflexivity.
  - intros k. specialize (Hnn k). destruct (decide (k = pg)); lia.
  - rewrite count_sum_incr, Hsum, length_app by done. simpl. lia.
Qed.

Lemma sample_init_spec (corpus : gmap page (gset page)) :
  (0 < size corpus)%nat ->
  exists st,
    for_in (keys corpus) (fun p (st : gmap page Q * gmap page Q) =>
      v ← truediv 1 (of_len (size corpus));
      Ok (<[p := v]> (st.1), <[p := 0]> (st.2))) (∅, ∅) = Ok st /\
    tabulates (st.1) (keys corpus) (fun _ => 1 / of_len (size corpus)) /\
    tabulates (st.2) (keys corpus) (fun _ => 0).
Proof.
  intros HN.
  apply (for_in_inv (fun done (st : gmap page Q * gmap page Q) =>
    tabulates (st.1) done (fun _ => 1 / of_len (size corpus)) /\
    tabulates (st.2) done (fun _ => 0))).
  - split; apply tabulates_nil.
  - intros done x rest st _ [H1 H2].
    rewrite truediv_ok by (rewrite of_len_eq_0; lia).
    eexists. split; [reflexivity|]. split; cbn [fst snd].
    + by apply (tabulates_snoc _ _ _ (fun _ => 1 / of_len (size corpus))).
    + by apply (tabulates_snoc _ _ _ (fun _ => 0)).
Qed.

Lemma walk_step (corpus : gmap page (gset page)) (d u : Q) (done : list nat)
    (st : gmap page Q * gmap page Q) :
  (0 < size corpus)%nat -> 0 < d < 1 -> walk_inv corpus done st ->
  forall i : nat, exists st',
    (current_page ← choices (keys corpus) (values (st.1)) u;
     c ← getitem (st.2) current_page;
     let sample_dist := <[current_page := c + 1]> (st.2) in
     prob ← transition_model corpus current_page d;
     Ok (prob, sample_dist)) = Ok st' /\
    walk_inv corpus (done ++ [i]) st'.
Proof.
  intros HN Hd [(w & Hw & Hwpos) Hcount] i.
  destruct (choices_ok (keys corpus) (values (st.1)) u) as (pg & Hpg & Hin).
  { rewrite length_values. apply (tabulates_size _ _ w); [apply NoDup_keys|done]. }
  { by rewrite length_keys. }
  { by apply (tabulates_values_Forall _ (keys corpus) w). }
  rewrite Hpg. monad_step.
  destruct (count_step corpus done (st.2) pg i Hcount Hin) as (c & Hc & Hcount').
  rewrite Hc. monad_step.
  pose proof Hin as Hin'. apply elem_of_keys in Hin' as [links Hlinks].
  destruct (transition_model_spec corpus pg links d Hlinks) as (m & Hm & Ht).
  cbn zeta. rewrite Hm. monad_step.
  eexists. split; [reflexivity|]. split; cbn [fst snd]; [|done].
  exists (transition_value corpus links d). split; [done|].
  intros k _. by apply transition_value_pos.
Qed.

(** The final loop [sample_dist[k] = sample_dist[k]/n]. *)
Lemma sample_normalise_spec (sd : gmap page Q) (ks : list page)
    (cq : page -> Q) (n : Z) :
  n ≠ 0%Z -> tabulates sd ks cq ->
  exists r,
    for_in (keys sd) (fun k sample_dist =>
      c ← getitem sample_dist k;
      v ← truediv c (inject_Z n);
      Ok (<[k := v]> sample_dist)) sd = Ok r /\
    tabulates r ks (fun k => cq k / inject_Z n).
Proof.
  intros Hn Hsd.
  match goal with |- context [for_in _ ?b _] =>
    destruct (for_in_inv (fun done (m : gmap page Q) =>
      forall k, m !! k = if decide (k ∈ done)
                         then Some (cq k / inject_Z n) else sd !! k)
      (keys sd) b sd) as (r & Hr & Hinv)
  end.
  - intros k. by rewrite decide_False by apply not_elem_of_nil.
  - intros done x rest m Hsplit Hinv.
    apply keys_split_notin in Hsplit as [Hx Hxin].
    apply (tabulates_keys sd ks cq x Hsd) in Hxin.
    assert (Hc : m !! x = Some (cq x)).
    { rewrite Hinv, decide_False by done. by rewrite Hsd, decide_True. }
    rewrite (getitem_ok _ _ _ Hc). monad_step.
    rewrite truediv_ok.
    2:{ change 0 with (inject_Z 0). by rewrite inject_Z_injective. }
    eexists. split; [reflexivity|]. intros k.
    destruct (decide (k = x)) as [->|Hne].
    + rewrite lookup_insert_eq, decide_True; [done|].
      apply elem_of_app. right. left.
    + rewrite lookup_insert_ne, Hinv by done.
      destruct (decide (k ∈ done)) as [Hk|Hk].
      * rewrite decide_True; [done|]. apply elem_of_app. by left.
      * rewrite decide_False; [done|].
        intros [?|?%list_elem_of_singleton]%elem_of_app; done.
  - exists r. split; [done|]. intros k. rewrite Hinv.
    destruct (decide (k ∈ keys sd)) as [Hk|Hk].
    + apply (tabulates_keys sd ks cq k Hsd) in Hk. by rewrite decide_True.
    + rewrite (tabulates_keys sd ks cq k Hsd) in Hk.
      rewrite decide_False by done. by rewrite Hsd, decide_False.
Qed.

(** What [sample_pagerank] returns: page [k] has the value [cq k / n], where
    [cq k] is the integer visit count [cnt k] of [k]. *)
Lemma sample_pagerank_spec (corpus : gmap page (gset page)) (d : Q) (n : Z)
    (rand : nat -> Q) :
  (0 < size corpus)%nat -> 0 < d < 1 -> (1 <= n)%Z ->
  exists r cq cnt,
    sample_pagerank corpus d n rand = Ok r /\
    tabulates r (keys corpus) (fun k => cq k / inject_Z n) /\
    (forall k, k ∈ keys corpus -> cq k == inject_Z (cnt k)) /\
    (forall k, 0 <= cnt k)%Z /\
    count_sum (keys corpus) cnt = n.
Proof.
  intros HN Hd Hn. unfold sample_pagerank.
  destruct (sample_init_spec corpus HN) as (st0 & Hst0 & Hprob0 & Hsd0).
  rewrite Hst0. monad_step.
  match goal with |- context [for_in (seq _ _) ?b ?st] =>
    destruct (for_in_inv (walk_inv corpus) (seq 0 (Z.to_nat n)) b st)
      as (st1 & Hst1 & Hinv)
  end.
  - split.
    + eexists. split; [exact Hprob0|]. intros k _.
      apply Qdiv_pos; [lra|by apply of_len_pos].
    + by apply count_inv_init.
  - intros done x rest st _ Hinv. by apply walk_step.
  - rewrite Hst1. monad_step.
    destruct Hinv as [_ (cq & cnt & Hcq & Hcnt & Hnn & Hsum)].
    destruct (sample_normalise_spec (st1.2) (keys corpus) cq n) as (r & Hr & Htab);
      [lia|done|].
    exists r, cq, cnt. rewrite Hr. repeat split; try done.
    rewrite Hsum, length_seq. lia.
Qed.

Lemma for_in_inv_partial {A S : Type} (Inv : list A -> S -> Prop)
    (xs : list A) (body : A -> S -> result S) (st0 st : S) :
  Inv [] st0 ->
  (forall done x rest s s', xs = done ++ x :: rest -> Inv done s ->
     body x s = Ok s' -> Inv (done ++ [x]) s') ->
  for_in xs body st0 = Ok st -> Inv xs st.
Proof.
  intros H0 Hstep.
  assert (G : forall rest done s, xs = done ++ rest -> Inv done s ->
            for_in rest body s = Ok st -> Inv xs st).
  { induction rest as [|x rest IH]; intros done s Hxs Hinv Hrun.
    - rewrite app_nil_r in Hxs. simpl in Hrun. injection Hrun as <-. by subst.
    - simpl in Hrun. destruct (body x s) as [s'|e] eqn:Hb; [|done].
      apply (IH (done ++ [x]) s'); [by rewrite <- app_assoc| |done].
      by eapply Hstep. }
  by apply (G xs [] st0).
Qed.

Lemma choices_elem_of (population : list page) (weights : list Q) (u : Q)
    (pg : page) :
  choices population weights u = Ok pg -> pg ∈ population.
Proof.
  unfold choices. intros H.
  destruct (decide _); [|done].
  destruct (list_getitem _ _) as [total|]; [|done]. cbn [mbind result_bind] in H.
  destruct (Qle_bool total 0); [done|].
  destruct (bisect _ _ _ _) as [idx|]; [|done]. cbn [mbind result_bind] in H.
  unfold list_getitem in H. destruct (population !! idx) eqn:E; [|done].
  injection H as ->. by eapply list_elem_of_lookup_2.
Qed.

(** Whatever the damping factor and the draws are: when [sample_pagerank]
    returns, page [k] has the value [cq k / n] for its visit count [cq k]. *)
Lemma sample_pagerank_partial (corpus : gmap page (gset page)) (d : Q) (n : Z)
    (rand : nat -> Q) (r : gmap page Q) :
  (0 < size corpus)%nat -> (1 <= n)%Z ->
  sample_pagerank corpus d n rand = Ok r ->
  exists cq cnt,
    tabulates r (keys corpus) (fun k => cq k / inject_Z n) /\
    (forall k, k ∈ keys corpus -> cq k == inject_Z (cnt k)) /\
    (forall k, 0 <= cnt k)%Z /\
    count_sum (keys corpus) cnt = n.
Proof.
  intros HN Hn. unfold sample_pagerank.
  destruct (sample_init_spec corpus HN) as (st0 & Hst0 & Hprob0 & Hsd0).
  rewrite Hst0. monad_step.
  match goal with |- context [for_in (seq _ _) ?b ?st] =>
    destruct (for_in (seq 0 (Z.to_nat n)) b st) as [st1|e] eqn:Hst1; [|done];
    apply (for_in_inv_partial
      (fun done (s : gmap page Q * gmap page Q) => count_inv corpus done (s.2)))
      in Hst1
  end.
  - monad_step. intros Hr.
    destruct Hst1 as (cq & cnt & Hcq & Hcnt & Hnn & Hsum).
    destruct (sample_normalise_spec (st1.2) (keys corpus) cq n) as (r' & Hr' & Htab);
      [lia|done|].
    rewrite Hr' in Hr. injection Hr as ->. exists cq, cnt. repeat split; try done.
    rewrite Hsum, length_seq. lia.
  - by apply count_inv_init.
  - intros done x rest s s' _ Hinv Hbody.
    destruct (choices _ _ _) as [pg|] eqn:Hpg; [|done].
    apply choices_elem_of in Hpg. cbn [mbind result_bind] in Hbody.
    destruct (count_step corpus done (s.2) pg x Hinv Hpg) as (c & Hc & Hinv').
    rewrite Hc in Hbody. cbn [mbind result_bind] in Hbody. cbn zeta in Hbody.
    destruct (transition_model _ _ _) as [m|]; [|done].
    cbn [mbind result_bind] in Hbody. by injection Hbody as <-.
Qed.

Lemma size_pos_of_nonempty {V : Type} (corpus : gmap page V) :
  corpus ≠ ∅ -> (0 < size corpus)%nat.
Proof.
  intros H. destruct (decide (size corpus = O)) as [E|]; [|lia].
  by apply map_size_empty_iff in E.
Qed.

(** The normalised counters: values in [0, 1] that sum to 1. *)
Lemma normalised_counts (r : gmap page Q) (ks : list page) (cq : page -> Q)
    (cnt : page -> Z) (n : Z) :
  NoDup ks -> (1 <= n)%Z ->
  tabulates r ks (fun k => cq k / inject_Z n) ->
  (forall k, k ∈ ks -> cq k == inject_Z (cnt k)) ->
  (forall k, 0 <= cnt k)%Z -> count_sum ks cnt = n ->
  (forall k, k ∈ ks -> exists v, r !! k = Some v /\
     v == inject_Z (cnt k) / inject_Z n /\ (0 <= cnt k <= n)%Z /\ 0 <= v <= 1) /\
  dist_sum r == 1.
Proof.
  intros Hnd Hn Htab Hcq Hnn Hsum.
  assert (Hn0 : 0 < inject_Z n).
  { change 0 with (inject_Z 0). rewrite <- Zlt_Qlt. lia. }
  split.
  - intros k Hk. exists (cq k / inject_Z n).
    split; [by rewrite Htab, decide_True|].
    assert (Hb : (0 <= cnt k <= n)%Z).
    { split; [done|]. rewrite <- Hsum. by apply count_sum_bound. }
    split; [by rewrite (Hcq k Hk)|]. split; [done|].
    rewrite (Hcq k Hk). split.
    + apply Qdiv_nonneg; [|done]. change 0 with (inject_Z 0).
      rewrite <- Zle_Qle. lia.
    + apply Qle_shift_div_r; [done|]. rewrite Qmult_1_l, <- Zle_Qle. lia.
  - rewrite (tabulates_sum r ks _ Hnd Htab).
    rewrite (sum_over_ext ks _ (fun k => / inject_Z n * inject_Z (cnt k))).
    + rewrite sum_over_scale, sum_over_inject_Z, Hsum. field. lra.
    + intros k Hk. rewrite (Hcq k Hk). unfold Qdiv. ring.
Qed.

(** C6: on a non-empty corpus, with a damping factor in (0, 1) and [n >= 1]
    samples, [sample_pagerank] returns, for every random source, a dictionary
    whose keys are exactly the pages of the corpus, whose values lie in
    [0, 1] and sum to 1 (in exact arithmetic). *)
Theorem sample_pagerank_distribution (corpus : gmap page (gset page)) (d : Q)
    (n : Z) (rand : nat -> Q) :
  corpus ≠ ∅ -> 0 < d < 1 -> (1 <= n)%Z ->
  exists r, sample_pagerank corpus d n rand = Ok r /\
    dom r = dom corpus /\
    (forall k v, r !! k = Some v -> 0 <= v <= 1) /\
    dist_sum r == 1.
Proof.
  intros Hne Hd Hn. apply size_pos_of_nonempty in Hne.
  destruct (sample_pagerank_spec corpus d n rand Hne Hd Hn)
    as (r & cq & cnt & Hr & Htab & Hcq & Hnn & Hsum).
  destruct (normalised_counts r (keys corpus) cq cnt n (NoDup_keys corpus)
    Hn Htab Hcq Hnn Hsum) as [Hval Hone].
  exists r. split; [done|]. split; [by eapply tabulates_dom|]. split; [|done].
  intros k v Hk. pose proof Hk as Hk'. rewrite Htab in Hk'.
  destruct (decide (k ∈ keys corpus)) as [Hin|]; [|done].
  destruct (Hval k Hin) as (v' & Hv' & _ & _ & Hrange). congruence.
Qed.

Lemma dangling_corpus_nonempty : dangling_corpus ≠ ∅.
Proof.
  intros E. apply (f_equal (fun m => m !! "A"%string)) in E.
  vm_compute in E. discriminate.
Qed.

Lemma sample_pagerank_distribution_witness :
  exists r, sample_pagerank dangling_corpus (85 # 100) 3 (fun _ => 1 # 3) = Ok r /\
    dom r = dom dangling_corpus /\
    (forall k v, r !! k = Some v -> 0 <= v <= 1) /\
    dist_sum r == 1.
Proof.
  apply (sample_pagerank_distribution dangling_corpus (85 # 100) 3 (fun _ => 1 # 3)).
  - apply dangling_corpus_nonempty.
  - split; reflexivity.
  - lia.
Defined.

(** C10: on a non-empty corpus with [n >= 1], for every random source (and
    every damping factor), each value returned by [sample_pagerank] is [c/n]
    for an integer visit count [0 <= c <= n], the counts sum to exactly [n],
    and so the values sum to exactly 1 in rational arithmetic; for a damping
    factor in (0, 1) the function does return. *)
Theorem sample_pagerank_counts (corpus : gmap page (gset page)) (d : Q)
    (n : Z) (rand : nat -> Q) :
  corpus ≠ ∅ -> (1 <= n)%Z ->
  (forall r, sample_pagerank corpus d n rand = Ok r ->
     exists cnt : page -> Z,
       (forall k, k ∈ dom corpus -> exists v, r !! k = Some v /\
          v == inject_Z (cnt k) / inject_Z n /\ (0 <= cnt k <= n)%Z) /\
       count_sum (keys corpus) cnt = n /\
       dist_sum r == 1) /\
  (0 < d < 1 -> exists r, sample_pagerank corpus d n rand = Ok r).
Proof.
  intros Hne Hn. apply size_pos_of_nonempty in Hne. split.
  - intros r Hr.
    destruct (sample_pagerank_partial corpus d n rand r Hne Hn Hr)
      as (cq & cnt & Htab & Hcq & Hnn & Hsum).
    destruct (normalised_counts r (keys corpus) cq cnt n (NoDup_keys corpus)
      Hn Htab Hcq Hnn Hsum) as [Hval Hone].
    exists cnt. split; [|done].
    intros k Hk. apply elem_of_keys_dom in Hk.
    destruct (Hval k Hk) as (v & Hv & Heq & Hb & _). eauto.
  - intros Hd.
    destruct (sample_pagerank_spec corpus d n rand Hne Hd Hn) as (r & _ & _ & Hr & _).
    eauto.
Qed.

Lemma sample_pagerank_counts_witness :
  (forall r, sample_pagerank dangling_corpus (85 # 100) 3 (fun _ => 1 # 3) = Ok r ->
     exists cnt : page -> Z,
       (forall k, k ∈ dom dangling_corpus -> exists v, r !! k = Some v /\
          v == inject_Z (cnt k) / inject_Z 3 /\ (0 <= cnt k <= 3)%Z) /\
       count_sum (keys dangling_corpus) cnt = 3%Z /\
       dist_sum r == 1) /\
  (0 < 85 # 100 < 1 ->
   exists r, sample_pagerank dangling_corpus (85 # 100) 3 (fun _ => 1 # 3) = Ok r).
Proof.
  apply (sample_pagerank_counts dangling_corpus (85 # 100) 3 (fun _ => 1 # 3)).
  - apply dangling_corpus_nonempty.
  - lia.
Defined.

(** ** The PageRank recurrence *)

Lemma sum_over_snoc (ks : list page) (k : page) (f : page -> Q) :
  sum_over (ks ++ [k]) f == sum_over ks f + f k.
Proof.
  induction ks as [|x ks IH].
  - change (sum_over ([] ++ [k]) f) with (f k + 0). rewrite sum_over_nil. ring.
  - change (sum_over ((x :: ks) ++ [k]) f) with (f x + sum_over (ks ++ [k]) f).
    rewrite IH, sum_over_cons. ring.
Qed.

Lemma sum_over_abs (ks : list page) (f : page -> Q) :
  Qabs (sum_over ks f) <= sum_over ks (fun k => Qabs (f k)).
Proof.
  induction ks as [|k ks IH]; [rewrite !sum_over_nil; apply Qle_refl|].
  rewrite !sum_over_cons. eapply Qle_trans; [apply Qabs_triangle|].
  apply Qplus_le_compat; [apply Qle_refl|done].
Qed.

Lemma sum_over_minus (ks : list page) (f g : page -> Q) :
  sum_over ks (fun k => f k - g k) == sum_over ks f - sum_over ks g.
Proof.
  induction ks as [|k ks IH]; [rewrite !sum_over_nil; ring|].
  rewrite !sum_over_cons, IH. ring.
Qed.

Lemma share_nonneg (corpus : gmap page (gset page)) (i p : page) :
  0 <= share corpus i p.
Proof.
  unfold share. destruct (corpus !! i) as [links|] eqn:Hi; [|apply Qle_refl].
  destruct (decide (size links = O)) as [HL|HL].
  - apply Qdiv_nonneg; [lra|]. apply of_len_pos.
    apply (size_corpus_pos corpus i). eauto.
  - destruct (decide (p ∈ links)); [|apply Qle_refl].
    apply Qdiv_nonneg; [lra|]. apply of_len_pos. lia.
Qed.

Lemma sum_over_pick (ks : list page) (P : page -> Prop)
    `{!forall k, Decision (P k)} (b : Q) :
  sum_over ks (fun k => if decide (P k) then b else 0)
  == of_len (length (filter P ks)) * b.
Proof.
  rewrite (sum_over_ext ks _ (fun k => if decide (P k) then 0 + b else 0)).
  - rewrite sum_over_indicator. ring.
  - intros k _. destruct (decide (P k)); ring.
Qed.

(** The shares of one page add up to at most 1, and to exactly 1 when all its
    links are keys of the corpus. *)
Lemma share_sum_le (corpus : gmap page (gset page)) (i : page) :
  sum_over (keys corpus) (share corpus i) <= 1.
Proof.
  unfold share. destruct (corpus !! i) as [links|] eqn:Hi.
  - assert (HN : 0 < of_len (size corpus)).
    { apply of_len_pos, (size_corpus_pos corpus i). eauto. }
    destruct (decide (size links = O)) as [HL|HL].
    + rewrite sum_over_const, length_keys.
      apply Qle_lteq. right. field. lra.
    + rewrite (sum_over_pick (keys corpus) (fun p => p ∈ links)).
      assert (HLpos : 0 < of_len (size links)) by (apply of_len_pos; lia).
      pose proof (length_filter_links_le (keys corpus) links (NoDup_keys corpus)) as Hle.
      assert (Hle' : of_len (length (filter (fun k => k ∈ links) (keys corpus)))
                     <= of_len (size links)).
      { unfold of_len. rewrite <- Zle_Qle. lia. }
      set (c := of_len (length (filter (fun k => k ∈ links) (keys corpus)))) in *.
      assert (E : c * (1 / of_len (size links)) == c / of_len (size links))
        by (field; lra).
      rewrite E. apply Qle_shift_div_r; [done|lra].
  - rewrite sum_over_const. apply Qle_lteq. left.
    assert (of_len (length (keys corpus)) * 0 == 0) as -> by ring. reflexivity.
Qed.

Lemma share_sum_eq (corpus : gmap page (gset page)) (i : page) :
  corpus_invariant corpus -> i ∈ keys corpus ->
  sum_over (keys corpus) (share corpus i) == 1.
Proof.
  intros Hinv Hi. apply elem_of_keys in Hi as [links Hi].
  unfold share. rewrite Hi.
  assert (HN : 0 < of_len (size corpus)).
  { apply of_len_pos, (size_corpus_pos corpus i). eauto. }
  destruct (decide (size links = O)) as [HL|HL].
  - rewrite sum_over_const, length_keys. field. lra.
  - rewrite (sum_over_pick (keys corpus) (fun p => p ∈ links)).
    rewrite length_filter_links.
    + assert (0 < of_len (size links)) by (apply of_len_pos; lia). field. lra.
    + apply NoDup_keys.
    + intros k Hk. apply elem_of_keys_dom. by apply (Hinv i links).
Qed.

Lemma next_rank_ext (corpus : gmap page (gset page)) (d : Q)
    (x y : page -> Q) (p : page) :
  (forall i, i ∈ keys corpus -> x i == y i) ->
  next_rank corpus d x p == next_rank corpus d y p.
Proof.
  intros H. unfold next_rank.
  rewrite (sum_over_ext (keys corpus) _ (fun i => y i * share corpus i p)).
  - reflexivity.
  - intros i Hi. by rewrite (H i Hi).
Qed.

(** One pass conserves the total rank: the new ranks sum to [(1 - d) + d]
    times the sum of the previous ranks. *)
Lemma next_rank_sum (corpus : gmap page (gset page)) (d : Q) (x : page -> Q) :
  (0 < size corpus)%nat -> corpus_invariant corpus ->
  sum_over (keys corpus) (next_rank corpus d x)
  == (1 - d) + d * sum_over (keys corpus) x.
Proof.
  intros HN Hinv. apply of_len_pos in HN. unfold next_rank.
  rewrite sum_over_plus, sum_over_const, length_keys, sum_over_scale.
  rewrite sum_over_swap.
  rewrite (sum_over_ext (keys corpus) _ x).
  - field. lra.
  - intros i Hi.
    rewrite (sum_over_scale (keys corpus) (x i) (share corpus i)).
    rewrite share_sum_eq by done. ring.
Qed.

Lemma Qmult_le_l_weak (z x y : Q) : 0 <= z -> x <= y -> z * x <= z * y.
Proof. intros Hz Hxy. nra. Qed.

(** One pass is a contraction for the sum of absolute differences. *)
Lemma next_rank_contraction (corpus : gmap page (gset page)) (d : Q)
    (x y : page -> Q) :
  0 <= d ->
  sum_over (keys corpus)
    (fun p => Qabs (next_rank corpus d x p - next_rank corpus d y p))
  <= d * sum_over (keys corpus) (fun i => Qabs (x i - y i)).
Proof.
  intros Hd.
  eapply Qle_trans.
  { apply (sum_over_le _ _ (fun p => d * sum_over (keys corpus)
             (fun i => Qabs (x i - y i) * share corpus i p))).
    intros p _. unfold next_rank.
    assert (E : (1 - d) / of_len (size corpus)
                + d * sum_over (keys corpus) (fun i => x i * share corpus i p)
                - ((1 - d) / of_len (size corpus)
                   + d * sum_over (keys corpus) (fun i => y i * share corpus i p))
                == d * sum_over (keys corpus)
                         (fun i => (x i - y i) * share corpus i p)).
    { rewrite (sum_over_ext (keys corpus) (fun i => (x i - y i) * share corpus i p)
                (fun i => x i * share corpus i p - y i * share corpus i p))
        by (intros; ring).
      rewrite sum_over_minus. ring. }
    rewrite E, Qabs_Qmult, (Qabs_pos d) by done.
    apply Qmult_le_l_weak; [done|].
    eapply Qle_trans; [apply sum_over_abs|].
    apply Qle_lteq. right. apply sum_over_ext. intros i _.
    rewrite Qabs_Qmult, (Qabs_pos (share corpus i p)) by apply share_nonneg.
    reflexivity. }
  rewrite sum_over_scale. apply Qmult_le_l_weak; [done|].
  rewrite sum_over_swap. apply sum_over_le. intros i _.
  rewrite (sum_over_scale (keys corpus) (Qabs (x i - y i)) (share corpus i)).
  pose proof (share_sum_le corpus i). pose proof (Qabs_nonneg (x i - y i)).
  rewrite <- (Qmult_1_r (Qabs (x i - y i))) at 2.
  by apply Qmult_le_l_weak.
Qed.

Lemma qpow_nonneg (d : Q) (j : nat) : 0 <= d -> 0 <= qpow d j.
Proof.
  intros Hd. induction j as [|j IH]; simpl; [lra|]. by apply Qmult_le_0_compat.
Qed.

Lemma qpow_le_1 (d : Q) (j : nat) : 0 <= d <= 1 -> qpow d j <= 1.
Proof.
  intros [Hd0 Hd1]. induction j as [|j IH]; simpl; [lra|].
  pose proof (qpow_nonneg d j Hd0). nra.
Qed.

Lemma qpow_bernoulli (d : Q) (j : nat) :
  0 <= d <= 1 -> qpow d j * (1 + of_len j * (1 - d)) <= 1.
Proof.
  intros [Hd0 Hd1]. induction j as [|j IH].
  - simpl. change (of_len 0) with 0. lra.
  - rewrite of_len_S. cbn [qpow].
    pose proof (qpow_le_1 d (S j) (conj Hd0 Hd1)) as Hp. cbn [qpow] in Hp.
    assert (H1 : d * (qpow d j * (1 + of_len j * (1 - d))) <= d * 1)
      by (by apply Qmult_le_l_weak).
    assert (H2 : d * qpow d j * (1 - d) <= 1 * (1 - d))
      by (apply Qmult_le_compat_r; lra).
    lra.
Qed.

Lemma Q_archimedean (q : Q) : exists j : nat, q <= of_len j.
Proof.
  exists (Z.to_nat (Qceiling q)). eapply Qle_trans; [apply Qle_ceiling|].
  unfold of_len. rewrite <- Zle_Qle. lia.
Qed.

(** The powers of a damping factor below 1 become arbitrarily small. *)
Lemma qpow_small (d c eps : Q) :
  0 <= d < 1 -> 0 <= c -> 0 < eps -> exists j, qpow d j * c <= eps.
Proof.
  intros [Hd0 Hd1] Hc Heps.
  destruct (Q_archimedean (c / (eps * (1 - d)))) as [j Hj].
  exists j.
  assert (Hpos : 0 < eps * (1 - d)) by nra.
  assert (Hj' : c <= of_len j * (eps * (1 - d))).
  { apply (Qmult_le_compat_r _ _ (eps * (1 - d))) in Hj; [|lra].
    assert (E : c / (eps * (1 - d)) * (eps * (1 - d)) == c) by (field; lra).
    by rewrite E in Hj. }
  pose proof (qpow_bernoulli d j) as Hb.
  pose proof (qpow_nonneg d j Hd0) as Hp. pose proof (of_len_nonneg j) as Hjn.
  set (t := 1 + of_len j * (1 - d)) in *.
  assert (Ht : 0 < t) by (unfold t; nra).
  apply (Qmult_le_r _ _ t Ht).
  assert (Hb' : qpow d j * t <= 1) by (apply Hb; lra).
  assert (c <= eps * t) by (unfold t; nra).
  nra.
Qed.

(** ** iterate_pagerank: one pass *)

Lemma rank_lookup {V : Type} (m : gmap page Q) (corpus : gmap page V) (k : page) :
  dom m = dom corpus -> k ∈ keys corpus -> m !! k = Some (rank m k).
Proof.
  intros Hdom Hk. apply elem_of_keys_dom in Hk. rewrite <- Hdom in Hk.
  apply elem_of_dom in Hk as [v Hv]. unfold rank. by rewrite Hv.
Qed.

Lemma rank_insert_eq (m : gmap page Q) (k : page) (v : Q) :
  rank (<[k := v]> m) k = v.
Proof. unfold rank. by rewrite lookup_insert_eq. Qed.

Lemma rank_insert_ne (m : gmap page Q) (k k' : page) (v : Q) :
  k ≠ k' -> rank (<[k := v]> m) k' = rank m k'.
Proof. intros H. unfold rank. by rewrite lookup_insert_ne. Qed.

Lemma dom_tabulates {V : Type} (m : gmap page Q) (corpus : gmap page V) :
  dom m = dom corpus -> tabulates m (keys corpus) (rank m).
Proof.
  intros Hdom k. destruct (decide (k ∈ keys corpus)) as [Hk|Hk].
  - by apply (rank_lookup m corpus).
  - rewrite elem_of_keys_dom, <- Hdom in Hk. by apply not_elem_of_dom.
Qed.

Lemma dist_sum_rank {V : Type} (m : gmap page Q) (corpus : gmap page V) :
  dom m = dom corpus -> dist_sum m == sum_over (keys corpus) (rank m).
Proof.
  intros Hdom. apply tabulates_sum; [apply NoDup_keys|by apply dom_tabulates].
Qed.

Lemma pymax_l (a b : Q) : a <= pymax a b.
Proof. unfold pymax. destruct (Qlt_le_dec a b); lra. Qed.

Lemma pymax_r (a b : Q) : b <= pymax a b.
Proof. unfold pymax. destruct (Qlt_le_dec a b); lra. Qed.

Lemma pymax_le_plus (a b : Q) : 0 <= a -> 0 <= b -> pymax a b <= a + b.
Proof. intros Ha Hb. unfold pymax. destruct (Qlt_le_dec a b); lra. Qed.

(** The inner loop adds up the shares of the previous ranks. *)
Lemma sum_pri_loop_spec (corpus : gmap page (gset page)) (prev : gmap page Q)
    (p : page) :
  (0 < size corpus)%nat -> dom prev = dom corpus ->
  exists s, sum_pri_loop corpus (of_len (size corpus)) prev p = Ok s /\
    s == sum_over (keys corpus) (fun i => rank prev i * share corpus i p).
Proof.
  intros HN Hdom. unfold sum_pri_loop.
  assert (HN0 : ~ of_len (size corpus) == 0) by (rewrite of_len_eq_0; lia).
  apply (for_in_inv (fun done s =>
    s == sum_over done (fun i => rank prev i * share corpus i p))).
  - reflexivity.
  - intros done x rest s Hsplit Hs.
    apply keys_split_notin in Hsplit as [_ Hx].
    pose proof Hx as Hx'. apply elem_of_keys in Hx' as [links Hlinks].
    rewrite (getitem_ok _ _ _ Hlinks). monad_step.
    rewrite of_len_eq_bool, (getitem_ok _ _ _ (rank_lookup prev corpus x Hdom Hx)).
    assert (Hshare : share corpus x p
              = if decide (size links = O) then 1 / of_len (size corpus)
                else if decide (p ∈ links) then 1 / of_len (size links) else 0)
      by (unfold share; by rewrite Hlinks).
    destruct (decide (size links = O)) as [HL|HL]; monad_step.
    + rewrite truediv_ok by done. eexists. split; [reflexivity|].
      rewrite sum_over_snoc, Hs, Hshare. field. done.
    + assert (~ of_len (size links) == 0) by (rewrite of_len_eq_0; lia).
      destruct (decide (p ∈ links)); monad_step.
      * rewrite truediv_ok by done.
        eexists. split; [reflexivity|]. rewrite sum_over_snoc, Hs, Hshare.
        field. done.
      * eexists. split; [reflexivity|]. rewrite sum_over_snoc, Hs, Hshare. ring.
Qed.

(** One pass of the [while] body: every page gets its [next_rank], and
    [max_diff] is between the largest and the sum of the absolute changes. *)
Lemma update_pass_spec (corpus : gmap page (gset page)) (d : Q)
    (prev new0 : gmap page Q) :
  (0 < size corpus)%nat -> dom prev = dom corpus -> dom new0 = dom corpus ->
  exists st, update_pass corpus d (of_len (size corpus)) prev new0 = Ok st /\
    dom (st.1) = dom corpus /\
    (forall k, k ∈ keys corpus ->
       rank (st.1) k == next_rank corpus d (rank prev) k) /\
    (forall k, k ∈ keys corpus -> Qabs (rank (st.1) k - rank prev k) <= st.2) /\
    st.2 <= sum_over (keys corpus) (fun k => Qabs (rank (st.1) k - rank prev k)).
Proof.
  intros HN Hprev Hnew. unfold update_pass.
  assert (HN0 : ~ of_len (size corpus) == 0) by (rewrite of_len_eq_0; lia).
  match goal with |- context [for_in _ ?b ?s0] =>
    destruct (for_in_inv (fun done (st : gmap page Q * Q) =>
      dom (st.1) = dom corpus /\
      (forall k, k ∈ done -> rank (st.1) k == next_rank corpus d (rank prev) k) /\
      (forall k, k ∈ done -> Qabs (rank (st.1) k - rank prev k) <= st.2) /\
      0 <= st.2 /\
      st.2 <= sum_over done (fun k => Qabs (rank (st.1) k - rank prev k)))
      (keys corpus) b s0) as (st & Hst & Hinv)
  end.
  - cbn [fst snd]. split; [done|]. split; [|split; [|split]].
    + intros k Hk. by apply elem_of_nil in Hk.
    + intros k Hk. by apply elem_of_nil in Hk.
    + apply Qle_refl.
    + rewrite sum_over_nil. apply Qle_refl.
  - intros done x rest st Hsplit (Hdom & Hnext & Hmax & Hpos & Hsum).
    apply keys_split_notin in Hsplit as [Hxd Hx].
    destruct (sum_pri_loop_spec corpus prev x HN Hprev) as (s & Hs & Hseq).
    rewrite Hs. monad_step. rewrite truediv_ok by done.
    monad_step. cbn zeta.
    rewrite (getitem_ok _ x _ (lookup_insert_eq _ _ _)). monad_step.
    rewrite (getitem_ok _ _ _ (rank_lookup prev corpus x Hprev Hx)).
    monad_step. eexists. split; [reflexivity|]. cbn [fst snd].
    set (v := (1 - d) / of_len (size corpus) + d * s).
    assert (Hold : forall k, k ∈ done -> rank (<[x := v]> (st.1)) k = rank (st.1) k).
    { intros k Hk. apply rank_insert_ne. by intros ->. }
    split; [|split; [|split; [|split]]].
    + rewrite dom_insert_L, Hdom. apply elem_of_keys_dom in Hx.
      apply set_eq. intros k. rewrite elem_of_union, elem_of_singleton.
      split; [intros [->|?]; done|auto].
    + intros k [Hk|Hk%list_elem_of_singleton]%elem_of_app; [|subst k].
      * rewrite (Hold k Hk). by apply Hnext.
      * rewrite rank_insert_eq. unfold v, next_rank. by rewrite Hseq.
    + intros k [Hk|Hk%list_elem_of_singleton]%elem_of_app; [|subst k].
      * rewrite (Hold k Hk). eapply Qle_trans; [by apply Hmax|]. apply pymax_l.
      * rewrite rank_insert_eq. apply pymax_r.
    + eapply Qle_trans; [exact Hpos|]. apply pymax_l.
    + rewrite sum_over_snoc, rank_insert_eq.
      rewrite (sum_over_ext done _ (fun k => Qabs (rank (st.1) k - rank prev k))).
      * eapply Qle_trans; [apply pymax_le_plus; [done|apply Qabs_nonneg]|].
        apply Qplus_le_compat; [done|apply Qle_refl].
      * intros k Hk. by rewrite (Hold k Hk).
  - exists st. destruct Hinv as (H1 & H2 & H3 & _ & H5). done.
Qed.

(** ** iterate_pagerank: the loop *)

Lemma iterate_init_spec (corpus : gmap page (gset page)) :
  (0 < size corpus)%nat ->
  exists st, iterate_init corpus (of_len (size corpus)) = Ok st /\
    tabulates (st.1) (keys corpus) (fun _ => 1 / of_len (size corpus)) /\
    tabulates (st.2) (keys corpus) (fun _ => -1).
Proof.
  intros HN. unfold iterate_init.
  apply (for_in_inv (fun done (st : gmap page Q * gmap page Q) =>
    tabulates (st.1) done (fun _ => 1 / of_len (size corpus)) /\
    tabulates (st.2) done (fun _ => -1))).
  - split; apply tabulates_nil.
  - intros done x rest st _ [H1 H2].
    rewrite truediv_ok by (rewrite of_len_eq_0; lia).
    eexists. split; [reflexivity|]. split; cbn [fst snd].
    + by apply (tabulates_snoc _ _ _ (fun _ => 1 / of_len (size corpus))).
    + by apply (tabulates_snoc _ _ _ (fun _ => -1)).
Qed.

Lemma initial_ranks_spec (corpus : gmap page (gset page)) :
  (0 < size corpus)%nat ->
  (exists prev0, iterate_init corpus (of_len (size corpus))
                 = Ok (initial_ranks corpus, prev0)) /\
  dom (initial_ranks corpus) = dom corpus /\
  dist_sum (initial_ranks corpus) == 1.
Proof.
  intros HN. unfold initial_ranks.
  destruct (iterate_init_spec corpus HN) as ([m prev0] & Hst & Hm & _).
  rewrite Hst. cbn [fst] in *. split; [eauto|]. split; [by eapply tabulates_dom|].
  rewrite (tabulates_sum m (keys corpus) _ (NoDup_keys corpus) Hm).
  rewrite sum_over_const, length_keys. apply of_len_pos in HN. field. lra.
Qed.

Lemma pass_spec (corpus : gmap page (gset page)) (d : Q) (prev : gmap page Q) :
  (0 < size corpus)%nat -> dom prev = dom corpus ->
  update_pass corpus d (of_len (size corpus)) prev prev = Ok (pass corpus d prev) /\
  dom ((pass corpus d prev).1) = dom corpus /\
  (forall k, k ∈ keys corpus ->
     rank ((pass corpus d prev).1) k == next_rank corpus d (rank prev) k) /\
  (forall k, k ∈ keys corpus ->
     Qabs (rank ((pass corpus d prev).1) k - rank prev k) <= (pass corpus d prev).2) /\
  (pass corpus d prev).2 <= total_change corpus d prev.
Proof.
  intros HN Hdom. unfold total_change, pass.
  destruct (update_pass_spec corpus d prev prev HN Hdom Hdom) as (st & Hst & H).
  by rewrite Hst.
Qed.

(** Mass conservation of one pass. *)
Lemma pass_sum (corpus : gmap page (gset page)) (d : Q) (prev : gmap page Q) :
  (0 < size corpus)%nat -> corpus_invariant corpus ->
  dom prev = dom corpus -> dist_sum prev == 1 ->
  dist_sum ((pass corpus d prev).1) == 1.
Proof.
  intros HN Hinv Hdom Hsum.
  destruct (pass_spec corpus d prev HN Hdom) as (_ & Hdom' & Hnext & _).
  rewrite (dist_sum_rank _ corpus Hdom').
  rewrite (sum_over_ext _ _ (next_rank corpus d (rank prev)) Hnext).
  rewrite next_rank_sum by done.
  rewrite <- (dist_sum_rank _ corpus Hdom), Hsum. ring.
Qed.

Lemma total_change_contracts (corpus : gmap page (gset page)) (d : Q)
    (x : gmap page Q) :
  (0 < size corpus)%nat -> 0 <= d -> dom x = dom corpus ->
  total_change corpus d ((pass corpus d x).1) <= d * total_change corpus d x.
Proof.
  intros HN Hd Hdom.
  destruct (pass_spec corpus d x HN Hdom) as (_ & Hdom' & Hnext & _).
  destruct (pass_spec corpus d _ HN Hdom') as (_ & _ & Hnext' & _).
  unfold total_change at 1.
  rewrite (sum_over_ext _ _ (fun k =>
    Qabs (next_rank corpus d (rank ((pass corpus d x).1)) k
          - next_rank corpus d (rank x) k))).
  - apply next_rank_contraction. done.
  - intros k Hk. by rewrite (Hnext' k Hk), (Hnext k Hk).
Qed.

Lemma diff_after_bound (corpus : gmap page (gset page)) (d : Q) (j : nat)
    (x : gmap page Q) :
  (0 < size corpus)%nat -> 0 <= d -> dom x = dom corpus ->
  diff_after corpus d j x <= qpow d j * total_change corpus d x.
Proof.
  intros HN Hd. revert x. induction j as [|j IH]; intros x Hdom.
  - destruct (pass_spec corpus d x HN Hdom) as (_ & _ & _ & _ & Hle).
    simpl. lra.
  - destruct (pass_spec corpus d x HN Hdom) as (_ & Hdom' & _).
    cbn [diff_after qpow]. eapply Qle_trans; [by apply IH|].
    pose proof (total_change_contracts corpus d x HN Hd Hdom).
    pose proof (qpow_nonneg d j Hd).
    assert (E : d * qpow d j * total_change corpus d x
                == qpow d j * (d * total_change corpus d x)) by ring.
    rewrite E. by apply Qmult_le_l_weak.
Qed.

Lemma total_change_nonneg (corpus : gmap page (gset page)) (d : Q)
    (x : gmap page Q) : 0 <= total_change corpus d x.
Proof. apply sum_over_nonneg. intros k _. apply Qabs_nonneg. Qed.

Lemma while_loop_done (fuel : nat) (corpus : gmap page (gset page))
    (d N : Q) (new prev : gmap page Q) (md : Q) :
  md <= 1 # 1000 -> while_loop fuel corpus d N new prev md = Some (Ok new).
Proof.
  intros H. destruct fuel; simpl; destruct (Qlt_le_dec (1 # 1000) md); try done; lra.
Qed.

Lemma while_loop_step (fuel : nat) (corpus : gmap page (gset page))
    (d N : Q) (new prev : gmap page Q) (md : Q) (st : gmap page Q * Q) :
  1 # 1000 < md -> update_pass corpus d N new new = Ok st ->
  while_loop (S fuel) corpus d N new prev md
  = while_loop fuel corpus d N (st.1) new (st.2).
Proof.
  intros H Hst. simpl. destruct (Qlt_le_dec (1 # 1000) md); [|lra].
  by rewrite Hst.
Qed.

Lemma converged_pass (corpus : gmap page (gset page)) (d : Q) (x : gmap page Q) :
  (0 < size corpus)%nat -> dom x = dom corpus ->
  (pass corpus d x).2 <= 1 # 1000 -> converged corpus d ((pass corpus d x).1).
Proof.
  intros HN Hdom Hle.
  destruct (pass_spec corpus d x HN Hdom) as (Hrun & _ & _ & Hmax & _).
  exists x, ((pass corpus d x).2). split; [done|]. split; [|split; [done|]].
  - rewrite Hrun. by destruct (pass corpus d x).
  - intros k Hk. apply Hmax. by apply elem_of_keys_dom.
Qed.

(** When the pass number [j + 1] from [new] brings [max_diff] down to
    [0.001], the loop returns within [j + 1] passes. *)
Lemma while_loop_terminates (corpus : gmap page (gset page)) (d : Q) (j : nat) :
  (0 < size corpus)%nat ->
  forall (new prev : gmap page Q) (md : Q),
    dom new = dom corpus ->
    diff_after corpus d j new <= 1 # 1000 ->
    (md <= 1 # 1000 -> converged corpus d new) ->
    exists r, while_loop (S j) corpus d (of_len (size corpus)) new prev md
              = Some (Ok r) /\ converged corpus d r.
Proof.
  intros HN. induction j as [|j IH]; intros new prev md Hdom Hdiff Hconv.
  - destruct (Qlt_le_dec (1 # 1000) md) as [Hgt|Hle].
    + destruct (pass_spec corpus d new HN Hdom) as (Hrun & _).
      rewrite (while_loop_step _ _ _ _ _ _ _ _ Hgt Hrun).
      cbn [diff_after] in Hdiff. rewrite while_loop_done by done.
      eexists. split; [reflexivity|]. by apply converged_pass.
    + rewrite while_loop_done by done. eauto.
  - destruct (Qlt_le_dec (1 # 1000) md) as [Hgt|Hle].
    + destruct (pass_spec corpus d new HN Hdom) as (Hrun & Hdom' & _).
      rewrite (while_loop_step _ _ _ _ _ _ _ _ Hgt Hrun).
      apply IH; [done|done|]. intros Hle. by apply converged_pass.
    + rewrite while_loop_done by done. eauto.
Qed.

Lemma while_loop_more_fuel (corpus : gmap page (gset page)) (d N : Q)
    (fuel extra : nat) :
  forall (new prev : gmap page Q) (md : Q) (res : result (gmap page Q)),
    while_loop fuel corpus d N new prev md = Some res ->
    while_loop (fuel + extra) corpus d N new prev md = Some res.
Proof.
  induction fuel as [|fuel IH]; intros new prev md res H.
  - simpl in H. destruct (Qlt_le_dec (1 # 1000) md) as [|Hle]; [done|].
    injection H as <-. by apply while_loop_done.
  - simpl in H |- *. destruct (Qlt_le_dec (1 # 1000) md); [|done].
    destruct (update_pass corpus d N new new) as [st|e]; [|done]. by apply IH.
Qed.

(** The loop keeps the sum of the working ranks equal to 1. *)
Lemma while_loop_sum (corpus : gmap page (gset page)) (d : Q) (fuel : nat) :
  (0 < size corpus)%nat -> corpus_invariant corpus ->
  forall (new prev r : gmap page Q) (md : Q),
    dom new = dom corpus -> dist_sum new == 1 ->
    while_loop fuel corpus d (of_len (size corpus)) new prev md = Some (Ok r) ->
    dom r = dom corpus /\ dist_sum r == 1.
Proof.
  intros HN Hinv. induction fuel as [|fuel IH]; intros new prev r md Hdom Hsum H.
  - simpl in H. destruct (Qlt_le_dec (1 # 1000) md); [done|].
    by injection H as <-.
  - destruct (Qlt_le_dec (1 # 1000) md) as [Hgt|Hle].
    + destruct (pass_spec corpus d new HN Hdom) as (Hrun & Hdom' & _).
      rewrite (while_loop_step _ _ _ _ _ _ _ _ Hgt Hrun) in H.
      apply IH in H; [done|done|]. by apply pass_sum.
    + rewrite while_loop_done in H by done. by injection H as <-.
Qed.

Lemma ranks_at_dom (corpus : gmap page (gset page)) (d : Q) (j : nat) :
  (0 < size corpus)%nat -> dom (ranks_at corpus d j) = dom corpus.
Proof.
  intros HN. induction j as [|j IH].
  - by destruct (initial_ranks_spec corpus HN) as (_ & ? & _).
  - cbn [ranks_at]. by destruct (pass_spec corpus d _ HN IH) as (_ & ? & _).
Qed.

Lemma ranks_at_sum (corpus : gmap page (gset page)) (d : Q) (j : nat) :
  (0 < size corpus)%nat -> corpus_invariant corpus ->
  dist_sum (ranks_at corpus d j) == 1.
Proof.
  intros HN Hinv. induction j as [|j IH].
  - by destruct (initial_ranks_spec corpus HN) as (_ & _ & ?).
  - cbn [ranks_at]. apply pass_sum; [done|done| |done]. by apply ranks_at_dom.
Qed.

(** The loop started on the ranks after [j] passes returns the ranks after
    some number [j' >= j] of passes, and [j' > j] when it runs a pass. *)
Lemma while_loop_ranks_at (corpus : gmap page (gset page)) (d : Q) (fuel : nat) :
  (0 < size corpus)%nat ->
  forall (j : nat) (prev r : gmap page Q) (md : Q),
    while_loop fuel corpus d (of_len (size corpus)) (ranks_at corpus d j) prev md
    = Some (Ok r) ->
    exists j', (j <= j')%nat /\ (1 # 1000 < md -> (j < j')%nat) /\
               r = ranks_at corpus d j'.
Proof.
  intros HN. induction fuel as [|fuel IH]; intros j prev r md H.
  - simpl in H. destruct (Qlt_le_dec (1 # 1000) md) as [|Hle]; [done|].
    injection H as <-. exists j. split; [lia|]. split; [lra|done].
  - destruct (Qlt_le_dec (1 # 1000) md) as [Hgt|Hle].
    + destruct (pass_spec corpus d (ranks_at corpus d j) HN (ranks_at_dom corpus d j HN))
        as (Hrun & _).
      rewrite (while_loop_step _ _ _ _ _ _ _ _ Hgt Hrun) in H.
      destruct (IH (S j) _ _ _ H) as (j' & Hle & _ & ->).
      exists j'. split; [lia|]. split; [lia|done].
    + rewrite while_loop_done in H by done. injection H as <-.
      exists j. split; [lia|]. split; [lra|done].
Qed.

Lemma iterate_pagerank_sum (corpus : gmap page (gset page)) (d : Q)
    (fuel : nat) (r : gmap page Q) :
  (0 < size corpus)%nat -> corpus_invariant corpus ->
  iterate_pagerank fuel corpus d = Some (Ok r) ->
  dom r = dom corpus /\ dist_sum r == 1.
Proof.
  intros HN Hinv. unfold iterate_pagerank.
  destruct (initial_ranks_spec corpus HN) as ([prev0 Hinit] & Hdom & Hsum).
  rewrite Hinit. cbn [fst snd]. by apply while_loop_sum.
Qed.

(** What [iterate_pagerank] returns are the working ranks after at least one
    pass. *)
Lemma iterate_pagerank_ranks_at (corpus : gmap page (gset page)) (d : Q)
    (fuel : nat) (r : gmap page Q) :
  (0 < size corpus)%nat ->
  iterate_pagerank fuel corpus d = Some (Ok r) ->
  exists j, (1 <= j)%nat /\ r = ranks_at corpus d j.
Proof.
  intros HN. unfold iterate_pagerank.
  destruct (initial_ranks_spec corpus HN) as ([prev0 Hinit] & _).
  rewrite Hinit. cbn [fst snd]. intros H.
  destruct (while_loop_ranks_at corpus d fuel HN 0 _ _ _ H) as (j & _ & Hj & ->).
  exists j. split; [|done]. assert (0 < j)%nat; [|lia]. apply Hj. reflexivity.
Qed.

(** The loop of [iterate_pagerank] is left after finitely many passes. *)
Lemma iterate_pagerank_returns (corpus : gmap page (gset page)) (d : Q) :
  (0 < size corpus)%nat -> 0 <= d < 1 ->
  exists passes r,
    converged corpus d r /\
    forall fuel, (passes <= fuel)%nat ->
      iterate_pagerank fuel corpus d = Some (Ok r).
Proof.
  intros HN [Hd0 Hd1].
  destruct (initial_ranks_spec corpus HN) as ([prev0 Hinit] & Hdom & _).
  destruct (qpow_small d (total_change corpus d (initial_ranks corpus)) (1 # 1000))
    as [j Hj]; [lra|apply total_change_nonneg|reflexivity|].
  destruct (while_loop_terminates corpus d j HN (initial_ranks corpus) prev0
              (11 # 10000) Hdom) as (r & Hr & Hconv).
  - eapply Qle_trans; [apply diff_after_bound; [done|lra|done]|done].
  - intros Habs. exfalso. revert Habs. apply Qlt_not_le. reflexivity.
  - exists (S j), r. split; [done|]. intros fuel Hfuel.
    unfold iterate_pagerank. rewrite Hinit. cbn [fst snd].
    replace fuel with (S j + (fuel - S j))%nat by lia.
    by apply while_loop_more_fuel.
Qed.

(** C4: in [iterate_pagerank], on a non-empty corpus in which every linked
    page is a key and for a damping factor in (0, 1), the working ranks sum
    to 1 at every iteration (in exact arithmetic): the uniform initialisation
    sums to 1; a full pass succeeds on previous ranks summing to 1, gives
    every page [(1 - d)/N] plus [d * prev i / L(i)] for each linking page [i]
    plus [d * prev i / N] for each dangling page [i], and yields ranks
    summing to 1; hence the ranks after any number of passes sum to 1, and
    the returned distribution, which is the ranks after some number of
    passes, sums to 1. *)
Theorem iterate_pagerank_sums_to_one (corpus : gmap page (gset page)) (d : Q) :
  corpus ≠ ∅ -> corpus_invariant corpus -> 0 < d < 1 ->
  (exists new0 prev0,
     iterate_init corpus (of_len (size corpus)) = Ok (new0, prev0) /\
     ranks_at corpus d 0 = new0 /\ dist_sum new0 == 1) /\
  (forall prev, dom prev = dom corpus -> dist_sum prev == 1 ->
     exists new max_diff,
       update_pass corpus d (of_len (size corpus)) prev prev = Ok (new, max_diff) /\
       dom new = dom corpus /\
       (forall p, p ∈ dom corpus ->
          rank new p == next_rank corpus d (rank prev) p) /\
       dist_sum new == 1) /\
  (forall j, dist_sum (ranks_at corpus d j) == 1) /\
  (forall fuel r, iterate_pagerank fuel corpus d = Some (Ok r) ->
     (exists j, (1 <= j)%nat /\ r = ranks_at corpus d j) /\
     dom r = dom corpus /\ dist_sum r == 1).
Proof.
  intros Hne Hinv Hd. apply size_pos_of_nonempty in Hne.
  split; [|split; [|split]].
  - destruct (initial_ranks_spec corpus Hne) as ([prev0 Hinit] & _ & Hsum).
    by exists (initial_ranks corpus), prev0.
  - intros prev Hdom Hsum.
    destruct (pass_spec corpus d prev Hne Hdom) as (Hrun & Hdom' & Hnext & _).
    exists ((pass corpus d prev).1), ((pass corpus d prev).2).
    split; [rewrite Hrun; by destruct (pass corpus d prev)|].
    split; [done|]. split; [|by apply pass_sum].
    intros p Hp. apply Hnext. by apply elem_of_keys_dom.
  - intros j. by apply ranks_at_sum.
  - intros fuel r Hr. split; [by eapply iterate_pagerank_ranks_at|].
    by eapply iterate_pagerank_sum.
Qed.

Lemma iterate_pagerank_sums_to_one_witness :
  (forall j, dist_sum (ranks_at dangling_corpus (85 # 100) j) == 1) /\
  (forall fuel r, iterate_pagerank fuel dangling_corpus (85 # 100) = Some (Ok r) ->
     (exists j, (1 <= j)%nat /\ r = ranks_at dangling_corpus (85 # 100) j) /\
     dom r = dom dangling_corpus /\ dist_sum r == 1).
Proof.
  destruct (iterate_pagerank_sums_to_one dangling_corpus (85 # 100))
    as (_ & _ & H3 & H4).
  - apply dangling_corpus_nonempty.
  - apply dangling_corpus_invariant.
  - split; reflexivity.
  - split; [exact H3|exact H4].
Defined.

(** *** The loop in binary64 arithmetic *)

Lemma float_while_loop_step (fuel : nat) (corpus : list (page * gset page))
    (d N : float) (new prev : gmap page float) (md : float)
    (st : gmap page float * float) :
  PrimFloat.ltb Binary64.threshold md = true ->
  Binary64.update_pass corpus d N new new = Ok st ->
  Binary64.while_loop (S fuel) corpus d N new prev md
  = Binary64.while_loop fuel corpus d N (st.1) new (st.2).
Proof. intros Hgt Hst. cbn [Binary64.while_loop]. by rewrite Hgt, Hst. Qed.

Lemma float_while_loop_prev (fuel : nat) (corpus : list (page * gset page))
    (d N : float) (new prev prev' : gmap page float) (md : float) :
  Binary64.while_loop fuel corpus d N new prev md
  = Binary64.while_loop fuel corpus d N new prev' md.
Proof. by destruct fuel. Qed.

(** Three states that the passes permute, each with a change above the
    threshold: the loop is never left. *)
Lemma float_while_loop_cycle (corpus : list (page * gset page)) (d N : float)
    (x1 x2 x3 : gmap page float) (m1 m2 m3 : float) :
  PrimFloat.ltb Binary64.threshold m1 = true ->
  PrimFloat.ltb Binary64.threshold m2 = true ->
  PrimFloat.ltb Binary64.threshold m3 = true ->
  Binary64.update_pass corpus d N x1 x1 = Ok (x2, m2) ->
  Binary64.update_pass corpus d N x2 x2 = Ok (x3, m3) ->
  Binary64.update_pass corpus d N x3 x3 = Ok (x1, m1) ->
  forall fuel prev,
    Binary64.while_loop fuel corpus d N x1 prev m1 = None /\
    Binary64.while_loop fuel corpus d N x2 prev m2 = None /\
    Binary64.while_loop fuel corpus d N x3 prev m3 = None.
Proof.
  intros H1 H2 H3 P1 P2 P3. induction fuel as [|fuel IH]; intros prev.
  - cbn [Binary64.while_loop]. by rewrite H1, H2, H3.
  - rewrite (float_while_loop_step _ _ _ _ _ _ _ _ H1 P1),
      (float_while_loop_step _ _ _ _ _ _ _ _ H2 P2),
      (float_while_loop_step _ _ _ _ _ _ _ _ H3 P3).
    cbn [fst snd]. split; [apply IH|split; apply IH].
Qed.

(** What the binary64 loop returns was produced by a full pass whose largest
    change is not above the threshold. *)
Lemma float_while_loop_exit (fuel : nat) (corpus : list (page * gset page))
    (d N : float) :
  forall (new prev r : gmap page float) (md : float),
    (PrimFloat.ltb Binary64.threshold md = false ->
     exists x, Binary64.update_pass corpus d N x x = Ok (new, md)) ->
    Binary64.while_loop fuel corpus d N new prev md = Some (Ok r) ->
    exists x max_diff,
      Binary64.update_pass corpus d N x x = Ok (r, max_diff) /\
      PrimFloat.ltb Binary64.threshold max_diff = false.
Proof.
  induction fuel as [|fuel IH]; intros new prev r md Hnew Hrun.
  - cbn [Binary64.while_loop] in Hrun.
    destruct (PrimFloat.ltb Binary64.threshold md) eqn:Hmd; [done|].
    injection Hrun as <-. destruct (Hnew eq_refl) as [x Hx]. eauto.
  - cbn [Binary64.while_loop] in Hrun.
    destruct (PrimFloat.ltb Binary64.threshold md) eqn:Hmd.
    + destruct (Binary64.update_pass corpus d N new new) as [st|e] eqn:Hst;
        [|done].
      apply (IH _ _ _ _) in Hrun; [done|]. intros _. exists new.
      by destruct st.
    + injection Hrun as <-. destruct (Hnew eq_refl) as [x Hx]. eauto.
Qed.

(** C5, as the code behaves: with the damping factor 0.9999999999999999, in
    (0, 1), on the corpus [{A: {B}, B: {C}, C: {A}, D: {A}}], which is not
    empty and in which every linked page is a key, the loop of
    [iterate_pagerank] in binary64 arithmetic is never left: after the first
    pass the ranks of A, B and C are 0.5, 0.25, 0.25 in rotation, with period
    3, and the largest change of every pass is 0.25. *)
Lemma iterate_pagerank_float_cycle :
  (PrimFloat.ltb PrimFloat.zero almost_one = true /\
   PrimFloat.ltb almost_one PrimFloat.one = true) /\
  (NoDup (Binary64.corpus_keys spiral_corpus) /\
   forall p links l, (p, links) ∈ spiral_corpus -> l ∈ links ->
     l ∈ Binary64.corpus_keys spiral_corpus) /\
  forall fuel, Binary64.iterate_pagerank fuel spiral_corpus almost_one = None.
Proof.
  split; [split; vm_compute; reflexivity|]. split.
  - split.
    + cbn. repeat (apply NoDup_cons; split; [|]); try apply NoDup_nil_2;
        rewrite ?elem_of_cons, ?elem_of_nil; intros H;
        repeat (destruct H as [H|H]; [discriminate H|]); exact H.
    + intros p links l Hp Hl. unfold spiral_corpus in Hp. cbn.
      rewrite !elem_of_cons, elem_of_nil in Hp. rewrite !elem_of_cons.
      destruct Hp as [Hp|[Hp|[Hp|[Hp|[]]]]]; injection Hp as -> ->;
        apply elem_of_singleton in Hl as ->; auto.
  - intros fuel. unfold Binary64.iterate_pagerank.
    change (Binary64.iterate_init spiral_corpus
              (Binary64.of_len (length spiral_corpus)))
      with (Binary64.iterate_init spiral_corpus (Binary64.of_len 4)).
    assert (Hinit : Binary64.iterate_init spiral_corpus (Binary64.of_len 4)
              = Ok (<["A"%string := 0.25%float]> (<["B"%string := 0.25%float]>
                     (<["C"%string := 0.25%float]> (<["D"%string := 0.25%float]> ∅))),
                    <["A"%string := (-1)%float]> (<["B"%string := (-1)%float]>
                     (<["C"%string := (-1)%float]> (<["D"%string := (-1)%float]> ∅)))))
      by (vm_compute; reflexivity).
    rewrite Hinit. cbn [fst snd].
    pose proof (float_while_loop_cycle spiral_corpus almost_one (Binary64.of_len 4)
      (spiral_ranks 0.5 0.25 0.25) (spiral_ranks 0.25 0.5 0.25)
      (spiral_ranks 0.25 0.25 0.5) 0.25%float 0.25%float 0.25%float
      ltac:(vm_compute; reflexivity) ltac:(vm_compute; reflexivity)
      ltac:(vm_compute; reflexivity) ltac:(vm_compute; reflexivity)
      ltac:(vm_compute; reflexivity) ltac:(vm_compute; reflexivity)) as Hcycle.
    destruct fuel as [|fuel]; [vm_compute; reflexivity|].
    rewrite (float_while_loop_step fuel spiral_corpus almost_one _ _ _ _
               (spiral_ranks 0.5 0.25 0.25, 0.25%float));
      [|vm_compute; reflexivity|vm_compute; reflexivity].
    apply Hcycle.
Qed.

(** C5 amended: in exact arithmetic the loop of [iterate_pagerank] is left,
    on every non-empty corpus in which every linked page is a key and for
    every damping factor in (0, 1): one pass is a contraction, so after
    finitely many passes the largest change of a full pass is at most 0.001
    and the function returns (more fuel does not change the result).  In the
    binary64 arithmetic of the code, where the loop has no bound on the
    number of passes, what is returned was produced by a full pass whose
    largest change is not above 0.001, and on [{A: {}, B: {A}}] with the
    damping factor 0.85 ten passes are enough; that a return happens is not
    guaranteed for every damping factor in (0, 1). *)
Theorem iterate_pagerank_terminates :
  (forall (corpus : gmap page (gset page)) (d : Q),
     corpus ≠ ∅ -> corpus_invariant corpus -> 0 < d < 1 ->
     exists passes r,
       converged corpus d r /\
       forall fuel, (passes <= fuel)%nat ->
         iterate_pagerank fuel corpus d = Some (Ok r)) /\
  (forall (fuel : nat) (corpus : list (page * gset page)) (d : float)
          (r : gmap page float),
     Binary64.iterate_pagerank fuel corpus d = Some (Ok r) ->
     exists prev max_diff,
       Binary64.update_pass corpus d (Binary64.of_len (length corpus)) prev prev
       = Ok (r, max_diff) /\
       PrimFloat.ltb Binary64.threshold max_diff = false) /\
  (exists r, Binary64.iterate_pagerank 10 dangling_list float_085 = Some (Ok r)).
Proof.
  split; [|split].
  - intros corpus d Hne _ [Hd0 Hd1]. apply size_pos_of_nonempty in Hne.
    apply iterate_pagerank_returns; [done|lra].
  - intros fuel corpus d r. unfold Binary64.iterate_pagerank.
    destruct (Binary64.iterate_init _ _) as [st|e]; [|done].
    apply float_while_loop_exit. intros H. vm_compute in H. discriminate H.
  - eexists. vm_compute. reflexivity.
Qed.

Lemma iterate_pagerank_terminates_witness :
  exists passes r,
    converged dangling_corpus (85 # 100) r /\
    forall fuel, (passes <= fuel)%nat ->
      iterate_pagerank fuel dangling_corpus (85 # 100) = Some (Ok r).
Proof.
  apply (proj1 iterate_pagerank_terminates dangling_corpus (85 # 100)).
  - apply dangling_corpus_nonempty.
  - apply dangling_corpus_invariant.
  - split; reflexivity.
Defined.

(** ** The single-page corpus *)

Lemma keys_single_corpus : keys single_corpus = ["A"%string].
Proof. vm_compute. reflexivity. Qed.

Lemma dom_single_corpus : dom single_corpus = {["A"%string]}.
Proof. unfold single_corpus. by rewrite dom_singleton_L. Qed.

Lemma single_corpus_invariant : corpus_invariant single_corpus.
Proof.
  intros p links Hp. unfold single_corpus in Hp.
  apply lookup_singleton_Some in Hp as [_ <-]. apply empty_subseteq.
Qed.

Lemma single_corpus_size : (0 < size single_corpus)%nat.
Proof. unfold single_corpus. rewrite map_size_singleton. lia. Qed.

Lemma single_sum_one (r : gmap page Q) :
  dom r = dom single_corpus -> dist_sum r == 1 -> is_single_one r.
Proof.
  intros Hdom Hsum. split; [by rewrite Hdom, dom_single_corpus|].
  rewrite (dist_sum_rank r single_corpus Hdom), keys_single_corpus in Hsum.
  rewrite sum_over_cons, sum_over_nil in Hsum.
  exists (rank r "A"%string). split; [|lra].
  apply (rank_lookup r single_corpus); [done|].
  rewrite keys_single_corpus. left.
Qed.

(** C9: on the single-page corpus [{A: {}}], for any damping factor in
    (0, 1): [sample_pagerank] returns [{A: 1}] for every [n >= 1] and every
    random source, and [iterate_pagerank] returns [{A: 1}] (values up to
    equality of rationals). *)
Theorem single_page_corpus (d : Q) :
  0 < d < 1 ->
  (forall (n : Z) (rand : nat -> Q), (1 <= n)%Z ->
     exists r, sample_pagerank single_corpus d n rand = Ok r /\ is_single_one r) /\
  (exists passes r,
     (forall fuel, (passes <= fuel)%nat ->
        iterate_pagerank fuel single_corpus d = Some (Ok r)) /\
     is_single_one r).
Proof.
  intros Hd. pose proof single_corpus_size as HN. split.
  - intros n rand Hn.
    destruct (sample_pagerank_spec single_corpus d n rand HN Hd Hn)
      as (r & cq & cnt & Hr & Htab & Hcq & Hnn & Hsum).
    destruct (normalised_counts r (keys single_corpus) cq cnt n
      (NoDup_keys single_corpus) Hn Htab Hcq Hnn Hsum) as [_ Hone].
    exists r. split; [done|]. apply single_sum_one; [|done].
    by eapply tabulates_dom.
  - destruct (iterate_pagerank_returns single_corpus d HN) as (passes & r & _ & Hrun);
      [lra|].
    exists passes, r. split; [done|].
    destruct (iterate_pagerank_sum single_corpus d passes r HN
                single_corpus_invariant) as [Hdom Hsum]; [by apply Hrun|].
    by apply single_sum_one.
Qed.

Lemma single_page_corpus_witness :
  (forall (n : Z) (rand : nat -> Q), (1 <= n)%Z ->
     exists r, sample_pagerank single_corpus (85 # 100) n rand = Ok r /\
               is_single_one r) /\
  (exists passes r,
     (forall fuel, (passes <= fuel)%nat ->
        iterate_pagerank fuel single_corpus (85 # 100) = Some (Ok r)) /\
     is_single_one r).
Proof. apply (single_page_corpus (85 # 100)). split; reflexivity. Defined.

(** ** The empty corpus and damping factors outside (0, 1) *)

Lemma keys_empty {V : Type} : keys (∅ : gmap page V) = [].
Proof. unfold keys. by rewrite map_to_list_empty. Qed.

Lemma values_empty {V : Type} : values (∅ : gmap page V) = [].
Proof. unfold values. by rewrite map_to_list_empty. Qed.

(** C7, as the code behaves: on the empty corpus [iterate_pagerank] does not
    fail, it returns the empty dictionary. *)
Lemma empty_corpus_iterate_returns :
  iterate_pagerank 1 ∅ (85 # 100) = Some (Ok ∅) /\
  ~ exists e, iterate_pagerank 1 ∅ (85 # 100) = Some (Raise e).
Proof.
  assert (H : iterate_pagerank 1 ∅ (85 # 100) = Some (Ok ∅))
    by (vm_compute; reflexivity).
  split; [exact H|]. intros [e He]. rewrite H in He. discriminate.
Qed.

(** C7 amended: on the empty corpus, [transition_model] fails with the
    [KeyError] of the lookup [corpus[page]] (no page is a key) and
    [sample_pagerank] with [n >= 1] fails at its first draw with the
    [IndexError] of [random.choices] on an empty population, both before any
    division; [iterate_pagerank] does not fail: its loops over the keys do
    nothing and it returns the empty dictionary after one pass. *)
Theorem empty_corpus_behaviour :
  (forall (pg : page) (d : Q), transition_model ∅ pg d = Raise KeyError) /\
  (forall (d : Q) (n : Z) (rand : nat -> Q), (1 <= n)%Z ->
     sample_pagerank ∅ d n rand = Raise IndexError) /\
  (forall (d : Q) (fuel : nat), (1 <= fuel)%nat ->
     iterate_pagerank fuel ∅ d = Some (Ok ∅)).
Proof.
  split; [|split].
  - intros pg d. unfold transition_model, getitem. by rewrite lookup_empty.
  - intros d n rand Hn. unfold sample_pagerank. rewrite keys_empty.
    cbn [for_in mbind result_bind fst snd].
    destruct (Z.to_nat n) as [|m] eqn:E; [lia|].
    cbn [seq for_in fst snd]. rewrite values_empty. reflexivity.
  - intros d fuel Hfuel. unfold iterate_pagerank, iterate_init.
    rewrite keys_empty. cbn [for_in fst snd].
    destruct fuel as [|fuel]; [lia|].
    rewrite (while_loop_step fuel _ _ _ _ _ _ (∅, 0)).
    + by apply while_loop_done.
    + reflexivity.
    + unfold update_pass. by rewrite keys_empty.
Qed.

Lemma empty_corpus_behaviour_witness :
  sample_pagerank ∅ (85 # 100) 3 (fun _ => 1 # 3) = Raise IndexError /\
  iterate_pagerank 2 ∅ (85 # 100) = Some (Ok ∅).
Proof.
  destruct empty_corpus_behaviour as (_ & Hsample & Hiterate).
  split; [apply Hsample; lia|apply Hiterate; lia].
Defined.

(** C8, as the code behaves: with the damping factor 2, outside (0, 1),
    [transition_model] returns a dictionary, [{A: 3/2, B: -1/2}]. *)
Lemma invalid_damping_accepted :
  exists m, transition_model dangling_corpus "B" 2 = Ok m /\
    (exists a, m !! "A"%string = Some a /\ a == 3 # 2) /\
    (exists b, m !! "B"%string = Some b /\ b == - (1 # 2)).
Proof.
  eexists. split; [vm_compute; reflexivity|]. split.
  - eexists. split; [vm_compute; reflexivity|]. reflexivity.
  - eexists. split; [vm_compute; reflexivity|]. reflexivity.
Qed.

(** C8 amended: the damping factor is not validated.  For every corpus, every
    page of the corpus and every damping factor of magnitude at most 2^1023
    (every finite [float] of that size, and every [int] that a true division
    turns into a [float]), inside (0, 1) or not, [transition_model] returns a
    dictionary over the pages of the corpus; with the damping factor 0 both
    estimators return on [{A: {}, B: {A}}]. *)
Theorem damping_not_validated :
  (forall (corpus : gmap page (gset page)) (p : page) (links : gset page) (d : Q),
     in_float_range d ->
     corpus !! p = Some links ->
     exists m, transition_model corpus p d = Ok m /\ dom m = dom corpus) /\
  (exists r, sample_pagerank dangling_corpus 0 2 (fun _ => 1 # 3) = Ok r) /\
  (exists r, iterate_pagerank 1 dangling_corpus 0 = Some (Ok r)).
Proof.
  split; [|split].
  - intros corpus p links d _ Hp.
    destruct (transition_model_spec corpus p links d Hp) as (m & Hm & Ht).
    exists m. split; [done|]. by eapply tabulates_dom.
  - eexists. vm_compute. reflexivity.
  - eexists. vm_compute. reflexivity.
Qed.

Lemma damping_not_validated_witness :
  in_float_range (- (1)) /\
  exists m, transition_model dangling_corpus "B" (- (1)) = Ok m /\
    dom m = dom dangling_corpus.
Proof.
  assert (Hrange : in_float_range (- (1))) by (vm_compute; discriminate).
  split; [exact Hrange|].
  exact (proj1 damping_not_validated dangling_corpus "B" {["A"%string]} (- (1))
           Hrange eq_refl).
Defined.

(** * Further properties *)

(** ** crawl *)

Lemma endswith_spec (s suffix : string) :
  endswith s suffix = true <-> exists pre, s = (pre +:+ suffix)%string.
Proof.
  induction s as [|a s IH]; cbn [endswith].
  - destruct (String.eqb_spec "" suffix) as [<-|Hne].
    + split; [|done]. by exists ""%string.
    + split; [done|]. intros ([|b pre] & Hpre); simpl in Hpre; [done|discriminate].
  - destruct (String.eqb_spec (String a s) suffix) as [<-|Hne].
    + split; [|done]. by exists ""%string.
    + rewrite IH. split.
      * intros (pre & ->). by exists (String a pre).
      * intros ([|b pre] & Hpre); simpl in Hpre; [done|].
        injection Hpre as -> ->. by exists pre.
Qed.

Section crawl_properties.
Variable findall : string -> list string.

Lemma crawl_read_other (listing : list (string * option string))
    (pages pages' : gmap page (gset page)) (f : page) :
  crawl_read findall listing pages = inr pages' ->
  f ∉ listing.*1 \/ endswith f ".html" = false ->
  pages' !! f = pages !! f.
Proof.
  revert pages. induction listing as [|[g oc] rest IH]; intros pages Hrun Hf.
  - simpl in Hrun. by injection Hrun as <-.
  - cbn [crawl_read] in Hrun.
    assert (Hrest : f ∉ rest.*1 \/ endswith f ".html" = false).
    { destruct Hf as [Hf|Hf]; [left|by right].
      intros Hin. apply Hf. rewrite fmap_cons. by right. }
    destruct (endswith g ".html") eqn:Hg; cbn [negb] in Hrun.
    + destruct oc as [c|]; [|done].
      rewrite (IH _ Hrun Hrest). apply lookup_insert_ne. intros ->.
      destruct Hf as [Hf|Hf]; [|congruence].
      apply Hf. rewrite fmap_cons. left.
    + by apply IH.
Qed.

Lemma crawl_read_entry (listing : list (string * option string))
    (pages pages' : gmap page (gset page)) (f : page) (oc : option string) :
  NoDup (listing.*1) ->
  crawl_read findall listing pages = inr pages' ->
  (f, oc) ∈ listing -> endswith f ".html" = true ->
  exists c, oc = Some c /\
    pages' !! f = Some (list_to_set (findall c) ∖ {[f]}).
Proof.
  revert pages. induction listing as [|[g oc'] rest IH];
    intros pages Hnd Hrun Hin Hf.
  - by apply elem_of_nil in Hin.
  - rewrite fmap_cons in Hnd. apply NoDup_cons in Hnd as [Hg Hnd].
    cbn [crawl_read fst] in Hrun, Hg.
    apply elem_of_cons in Hin as [Heq|Hin].
    + injection Heq as <- <-. rewrite Hf in Hrun. cbn [negb] in Hrun.
      destruct oc as [c|]; [|done]. exists c. split; [done|].
      rewrite (crawl_read_other _ _ _ f Hrun) by (by left).
      apply lookup_insert_eq.
    + destruct (endswith g ".html"); cbn [negb] in Hrun.
      * destruct oc' as [c'|]; [|done]. by eapply IH.
      * by eapply IH.
Qed.

Lemma crawl_read_dom (listing : list (string * option string))
    (pages pages' : gmap page (gset page)) (f : page) :
  crawl_read findall listing pages = inr pages' ->
  f ∈ dom pages' <->
  f ∈ dom pages \/ (f ∈ listing.*1 /\ endswith f ".html" = true).
Proof.
  revert pages. induction listing as [|[g oc] rest IH]; intros pages Hrun.
  - simpl in Hrun. injection Hrun as <-. rewrite fmap_nil.
    split; [by left|]. intros [?|[H%elem_of_nil _]]; done.
  - cbn [crawl_read] in Hrun. rewrite fmap_cons, elem_of_cons. cbn [fst].
    destruct (endswith g ".html") eqn:Hg; cbn [negb] in Hrun.
    + destruct oc as [c|]; [|done].
      rewrite (IH _ Hrun), dom_insert_L, elem_of_union, elem_of_singleton.
      split.
      * intros [[->|?]|[? ?]]; auto.
      * intros [?|[[->|?] ?]]; auto.
    + rewrite (IH _ Hrun). split.
      * intros [?|[? ?]]; auto.
      * intros [?|[[->|?] ?]]; auto. congruence.
Qed.

(** A value stored by the first loop never contains its own key. *)
Lemma crawl_read_no_self (listing : list (string * option string))
    (pages pages' : gmap page (gset page)) :
  crawl_read findall listing pages = inr pages' ->
  (forall f links, pages !! f = Some links -> f ∉ links) ->
  forall f links, pages' !! f = Some links -> f ∉ links.
Proof.
  revert pages. induction listing as [|[g oc] rest IH]; intros pages Hrun Hinv.
  - simpl in Hrun. by injection Hrun as <-.
  - cbn [crawl_read] in Hrun.
    destruct (endswith g ".html"); cbn [negb] in Hrun; [|by eapply IH].
    destruct oc as [c|]; [|done]. apply (IH _ Hrun).
    intros f links. destruct (decide (f = g)) as [->|Hne].
    + rewrite lookup_insert_eq. intros [= <-].
      rewrite elem_of_difference, elem_of_singleton. by intros [_ ?].
    + rewrite lookup_insert_ne by done. apply Hinv.
Qed.

(** The first loop stops at the first [.html] file that cannot be read. *)
Lemma crawl_read_failed (listing : list (string * option string))
    (pages : gmap page (gset page)) (f : string) :
  crawl_read findall listing pages = inl f <->
  exists before after,
    listing = before ++ (f, None) :: after /\
    endswith f ".html" = true /\
    forall g, (g, None) ∈ before -> endswith g ".html" = false.
Proof.
  revert pages. induction listing as [|[g oc] rest IH]; intros pages.
  - simpl. split; [done|]. intros (before & after & H & _).
    by destruct before.
  - cbn [crawl_read]. destruct (endswith g ".html") eqn:Hg; cbn [negb].
    + destruct oc as [c|].
      * rewrite IH. split.
        -- intros (before & after & -> & Hf & Hb).
           exists ((g, Some c) :: before), after. split; [done|]. split; [done|].
           intros g' [[=]|?]%elem_of_cons. by apply Hb.
        -- intros ([|x before] & after & Heq & Hf & Hb); simpl in Heq;
             [done|]. injection Heq as <- ->.
           exists before, after. split; [done|]. split; [done|].
           intros g' Hg'. apply Hb. by right.
      * split.
        -- intros [= <-]. exists [], rest. split; [done|]. split; [done|].
           intros g' Hg'. by apply elem_of_nil in Hg'.
        -- intros ([|x before] & after & Heq & Hf & Hb); simpl in Heq.
           ++ by injection Heq as ->.
           ++ injection Heq as <- ->.
              rewrite (Hb g) in Hg; [done|left].
    + rewrite IH. split.
      * intros (before & after & -> & Hf & Hb).
        exists ((g, oc) :: before), after. split; [done|]. split; [done|].
        intros g' [[= -> _]|?]%elem_of_cons; [done|]. by apply Hb.
      * intros ([|x before] & after & Heq & Hf & Hb); simpl in Heq.
        -- injection Heq as <- ->. congruence.
        -- injection Heq as <- ->.
           exists before, after. split; [done|]. split; [done|].
           intros g' Hg'. apply Hb. by right.
Qed.
(** The second loop keeps, in every value, exactly the links that are keys. *)
Lemma crawl_filter_spec (pages : gmap page (gset page)) :
  exists corpus, crawl_filter pages = Ok corpus /\
    forall f, corpus !! f
              = filter (fun link => is_Some (pages !! link)) <$> pages !! f.
Proof.
  unfold crawl_filter.
  match goal with |- context [for_in _ ?b _] =>
    destruct (for_in_inv (fun done (acc : gmap page (gset page)) =>
      forall f, acc !! f
                = if decide (f ∈ done)
                  then filter (fun link => is_Some (pages !! link)) <$> pages !! f
                  else pages !! f)
      (keys pages) b pages) as (corpus & Hrun & Hinv)
  end.
  - intros f. by rewrite decide_False by apply not_elem_of_nil.
  - intros done x rest acc Hsplit Hinv.
    apply keys_split_notin in Hsplit as [Hx Hxin].
    apply elem_of_keys in Hxin as [links Hlinks].
    assert (Hacc : acc !! x = Some links) by (by rewrite Hinv, decide_False).
    rewrite (getitem_ok _ _ _ Hacc). monad_step.
    eexists. split; [reflexivity|]. intros f.
    destruct (decide (f = x)) as [->|Hne].
    + rewrite lookup_insert_eq, decide_True by (apply elem_of_app; right; left).
      rewrite Hlinks. cbn [fmap option_fmap option_map]. f_equal.
      apply set_eq. intros l. rewrite !elem_of_filter, (Hinv l).
      destruct (decide (l ∈ done)); [|done]. by rewrite fmap_is_Some.
    + rewrite lookup_insert_ne, Hinv by done.
      destruct (decide (f ∈ done)) as [Hf|Hf].
      * rewrite decide_True; [done|]. apply elem_of_app. by left.
      * rewrite decide_False; [done|].
        intros [?|?%list_elem_of_singleton]%elem_of_app; done.
  - exists corpus. split; [done|]. intros f. rewrite Hinv.
    destruct (decide (f ∈ keys pages)) as [Hf|Hf]; [done|].
    rewrite elem_of_keys, <- eq_None_not_Some in Hf. by rewrite Hf.
Qed.

(** What [crawl] returns, in terms of the dictionary left by the first loop. *)
Lemma crawl_crawled (listing : list (string * option string))
    (corpus : gmap page (gset page)) :
  crawl findall listing = Crawled corpus ->
  exists pages, crawl_read findall listing ∅ = inr pages /\
    dom corpus = dom pages /\
    forall f, corpus !! f
              = filter (fun link => link ∈ dom corpus) <$> pages !! f.
Proof.
  unfold crawl. destruct (crawl_read findall listing ∅) as [g|pages]; [done|].
  destruct (crawl_filter_spec pages) as (corpus' & Hrun & Hlook).
  rewrite Hrun. intros [= <-]. exists pages. split; [done|].
  assert (Hdom : dom corpus' = dom pages).
  { apply set_eq. intros f. by rewrite !elem_of_dom, Hlook, fmap_is_Some. }
  split; [done|]. intros f. rewrite Hlook.
  destruct (pages !! f) as [links|]; [|done]. cbn. f_equal.
  apply set_eq. intros l. by rewrite !elem_of_filter, Hdom, elem_of_dom.
Qed.

(** X1: for a listing without repeated names, the keys of the corpus that
    [crawl] returns are the names of the listing that end in [.html], and
    the links of such a file are the extracted links, other than the file
    itself, that are keys of the corpus. *)
Theorem crawl_links (listing : list (string * option string))
    (corpus : gmap page (gset page)) :
  NoDup (listing.*1) -> crawl findall listing = Crawled corpus ->
  (forall f, f ∈ dom corpus <->
             f ∈ listing.*1 /\ endswith f ".html" = true) /\
  (forall f c, (f, Some c) ∈ listing -> endswith f ".html" = true ->
     exists links, corpus !! f = Some links /\
       forall l, l ∈ links <-> l ∈ findall c /\ l ≠ f /\ l ∈ dom corpus).
Proof.
  intros Hnd Hcrawl.
  destruct (crawl_crawled listing corpus Hcrawl) as (pages & Hread & Hdom & Hlook).
  split.
  - intros f. rewrite Hdom, (crawl_read_dom _ _ _ f Hread), dom_empty_L.
    split; [intros [H%not_elem_of_empty|?]; done|auto].
  - intros f c Hin Hf.
    destruct (crawl_read_entry listing ∅ pages f (Some c) Hnd Hread Hin Hf)
      as (c' & [= <-] & Hpages).
    eexists. split; [by rewrite Hlook, Hpages|].
    intros l. rewrite elem_of_filter, elem_of_difference, elem_of_list_to_set,
      elem_of_singleton. tauto.
Qed.

Lemma crawl_links_are_keys (listing : list (string * option string))
    (corpus : gmap page (gset page)) :
  crawl findall listing = Crawled corpus -> corpus_invariant corpus.
Proof.
  intros Hcrawl p links Hp.
  destruct (crawl_crawled listing corpus Hcrawl) as (pages & _ & _ & Hlook).
  rewrite Hlook in Hp. destruct (pages !! p) as [links0|]; [|done].
  injection Hp as <-. intros l Hl. by apply elem_of_filter in Hl as [? _].
Qed.

(** X2: the corpus that [crawl] returns satisfies the corpus invariant: every
    linked page is a key. *)
Theorem crawl_corpus_invariant (listing : list (string * option string))
    (corpus : gmap page (gset page)) :
  crawl findall listing = Crawled corpus -> corpus_invariant corpus.
Proof. apply crawl_links_are_keys. Qed.

(** X3: in the corpus that [crawl] returns no page links to itself. *)
Theorem crawl_no_self_link (listing : list (string * option string))
    (corpus : gmap page (gset page)) (f : page) (links : gset page) :
  crawl findall listing = Crawled corpus -> corpus !! f = Some links ->
  f ∉ links.
Proof.
  intros Hcrawl Hf.
  destruct (crawl_crawled listing corpus Hcrawl) as (pages & Hread & _ & Hlook).
  rewrite Hlook in Hf. destruct (pages !! f) as [links0|] eqn:Hpages; [|done].
  injection Hf as <-. rewrite elem_of_filter. intros [_ Hself].
  revert Hself. apply (crawl_read_no_self listing ∅ pages Hread); [|done].
  intros g l. by rewrite lookup_empty.
Qed.

(** X4: [crawl] fails when [os.listdir] fails, before any file is opened.
    On a listing it raises no exception of its own: it fails exactly when the
    [open] or [read] of a file ending in [.html] fails, at the first such
    file of the listing, and otherwise returns a corpus. *)
Theorem crawl_outcome :
  crawl_directory findall None = ListFailed /\
  forall listing : list (string * option string),
    (exists outcome, crawl_directory findall (Some listing) = Listed outcome /\
       outcome = crawl findall listing) /\
    (forall e, crawl_directory findall (Some listing) ≠ Listed (Raised e)) /\
    (forall f, crawl_directory findall (Some listing) = Listed (ReadFailed f) <->
       exists before after,
         listing = before ++ (f, None) :: after /\
         endswith f ".html" = true /\
         forall g, (g, None) ∈ before -> endswith g ".html" = false) /\
    ((forall g, (g, None) ∈ listing -> endswith g ".html" = false) ->
     exists corpus, crawl_directory findall (Some listing) = Listed (Crawled corpus)).
Proof.
  split; [done|]. intros listing. cbn [crawl_directory].
  split; [by eexists|]. split; [|split].
  - intros e. unfold crawl.
    destruct (crawl_read findall listing ∅) as [g|pages]; [done|].
    destruct (crawl_filter_spec pages) as (corpus & -> & _). done.
  - intros f. rewrite <- (crawl_read_failed listing ∅ f). unfold crawl.
    destruct (crawl_read findall listing ∅) as [g|pages].
    + split; congruence.
    + destruct (crawl_filter_spec pages) as (corpus & -> & _). done.
  - intros Hok. unfold crawl.
    destruct (crawl_read findall listing ∅) as [g|pages] eqn:Hread.
    + apply crawl_read_failed in Hread as (before & after & -> & Hg & _).
      rewrite Hok in Hg; [done|]. apply elem_of_app. right. left.
    + destruct (crawl_filter_spec pages) as (corpus & -> & _). eauto.
Qed.

Lemma crawl_read_html_only (listing : list (string * option string))
    (pages : gmap page (gset page)) :
  crawl_read findall (filter (fun e => endswith (e.1) ".html" = true) listing) pages
  = crawl_read findall listing pages.
Proof.
  revert pages. induction listing as [|[g oc] rest IH]; intros pages; [done|].
  rewrite filter_cons. cbn [fst crawl_read].
  destruct (endswith g ".html") eqn:Hg; cbn [negb].
  - rewrite decide_True by done. cbn [crawl_read]. rewrite Hg. cbn [negb].
    destruct oc; [apply IH|done].
  - rewrite decide_False by done. apply IH.
Qed.

(** X5: the files whose names do not end in [.html] are not read and do not
    change the result: [crawl] gives the same on the listing without them. *)
Theorem crawl_html_only (listing : list (string * option string)) :
  crawl findall (filter (fun e => endswith (e.1) ".html" = true) listing)
  = crawl findall listing.
Proof. unfold crawl. by rewrite crawl_read_html_only. Qed.
End crawl_properties.

(** ** transition_model: failure, range of the values, conservation of mass *)

(** X6: for a damping factor of magnitude at most 2^1023 (beyond it the
    division of an [int] by a length raises [OverflowError], which is not
    modelled), [transition_model] raises no exception but the [KeyError] of
    the lookup [corpus[page]], and raises it exactly when the page is not a
    key of the corpus; no division by zero can happen. *)
Theorem transition_model_raises (corpus : gmap page (gset page)) (pg : page)
    (d : Q) (e : exception) :
  in_float_range d ->
  transition_model corpus pg d = Raise e <-> e = KeyError /\ pg ∉ dom corpus.
Proof.
  intros _.
  destruct (corpus !! pg) as [links|] eqn:Hpg.
  - destruct (transition_model_spec corpus pg links d Hpg) as (m & -> & _).
    split; [done|]. intros [_ Hnot]. apply not_elem_of_dom in Hnot. congruence.
  - unfold transition_model, getitem. rewrite Hpg. monad_step. split.
    + intros [= <-]. split; [done|]. by apply not_elem_of_dom.
    + by intros [-> _].
Qed.

Lemma transition_model_raises_witness :
  in_float_range (85 # 100) /\
  transition_model dangling_corpus "C" (85 # 100) = Raise KeyError.
Proof.
  assert (Hrange : in_float_range (85 # 100)) by (vm_compute; discriminate).
  split; [exact Hrange|].
  apply (transition_model_raises dangling_corpus "C" (85 # 100) KeyError Hrange).
  split; [reflexivity|]. apply not_elem_of_dom. reflexivity.
Defined.

Lemma Qdiv_le_self (a b : Q) : 0 <= a -> 1 <= b -> a / b <= a.
Proof.
  intros Ha Hb. apply Qle_shift_div_r; [lra|]. nra.
Qed.

Lemma of_len_ge_1 (n : nat) : (0 < n)%nat -> 1 <= of_len n.
Proof.
  intros H. unfold of_len. change 1 with (inject_Z 1). rewrite <- Zle_Qle. lia.
Qed.

(** X7: for a damping factor in (0, 1) every value that [transition_model]
    returns is at least [(1 - d)/N], hence positive, and at most 1: every
    page of the corpus can be reached from every page. *)
Theorem transition_model_range (corpus : gmap page (gset page)) (p : page)
    (d : Q) (m : gmap page Q) (q : page) (v : Q) :
  0 < d < 1 -> transition_model corpus p d = Ok m -> m !! q = Some v ->
  0 < (1 - d) / of_len (size corpus) <= v /\ v <= 1.
Proof.
  intros [Hd0 Hd1] Hm Hq.
  destruct (corpus !! p) as [links|] eqn:Hp.
  2:{ unfold transition_model, getitem in Hm. by rewrite Hp in Hm. }
  destruct (transition_model_spec corpus p links d Hp) as (m' & Hm' & Ht).
  rewrite Hm in Hm'. injection Hm' as <-.
  rewrite Ht in Hq. destruct (decide (q ∈ keys corpus)); [|done].
  injection Hq as <-.
  assert (HN : (0 < size corpus)%nat) by (apply (size_corpus_pos corpus p); eauto).
  pose proof (of_len_ge_1 _ HN) as HN1.
  assert (Hbase : 0 < (1 - d) / of_len (size corpus)) by (apply Qdiv_pos; lra).
  pose proof (Qdiv_le_self (1 - d) _ ltac:(lra) HN1) as Hb1.
  unfold transition_value. destruct (decide (size links = O)) as [HL|HL].
  - pose proof (Qdiv_le_self 1 _ ltac:(lra) HN1).
    assert (E : 1 / of_len (size corpus)
                == (1 - d) / of_len (size corpus) + d / of_len (size corpus))
      by (field; lra).
    assert (0 < d / of_len (size corpus)) by (apply Qdiv_pos; lra).
    lra.
  - assert (HL1 : 1 <= of_len (size links)) by (apply of_len_ge_1; lia).
    pose proof (Qdiv_le_self d _ ltac:(lra) HL1).
    assert (0 < d / of_len (size links)) by (apply Qdiv_pos; lra).
    destruct (decide (q ∈ links)); lra.
Qed.

Lemma transition_model_range_witness :
  0 < (1 - (85 # 100)) / of_len (size dangling_corpus) <= 15 # 200 /\
  15 # 200 <= 1.
Proof.
  apply (transition_model_range dangling_corpus "B" (85 # 100)
           (<["A"%string := 18500 # 20000]> (<["B"%string := 15 # 200]> ∅))
           "B" (15 # 200)).
  - split; reflexivity.
  - vm_compute. reflexivity.
  - vm_compute. reflexivity.
Defined.

Lemma length_filter_links_inter (ks : list page) (links D : gset page) :
  NoDup ks -> (forall k, k ∈ ks <-> k ∈ D) ->
  length (filter (fun k => k ∈ links) ks) = size (links ∩ D).
Proof.
  intros Hnd HD. unfold size, set_size. simpl. apply Permutation_length.
  apply NoDup_Permutation.
  - by apply NoDup_filter.
  - apply NoDup_elements.
  - intros k. rewrite list_elem_of_filter, elem_of_elements, elem_of_intersection.
    by rewrite HD.
Qed.

(** The sum of the values of [transition_model] in general: the follow-link
    mass is shared among the [L] links but only reaches those that are keys. *)
Lemma transition_value_sum_gen (corpus : gmap page (gset page)) (p : page)
    (links : gset page) (d : Q) :
  corpus !! p = Some links -> size links ≠ O ->
  sum_over (keys corpus) (transition_value corpus links d)
  == (1 - d) + of_len (size (links ∩ dom corpus)) * (d / of_len (size links)).
Proof.
  intros Hp HL.
  assert (HN : ~ of_len (size corpus) == 0) by (apply (size_corpus_nonzero _ p); eauto).
  unfold transition_value. destruct (decide (size links = O)); [done|].
  rewrite (sum_over_indicator (keys corpus) (fun q => q ∈ links)).
  rewrite (length_filter_links_inter _ _ (dom corpus)), length_keys.
  - assert (~ of_len (size links) == 0) by (by rewrite of_len_eq_0).
    field. by split.
  - apply NoDup_keys.
  - intros k. apply elem_of_keys_dom.
Qed.

Lemma of_len_inj (n m : nat) : of_len n == of_len m -> n = m.
Proof. unfold of_len. rewrite inject_Z_injective. lia. Qed.

Lemma Q_share_full (c l d : Q) :
  ~ d == 0 -> ~ l == 0 -> 1 - d + c * (d / l) == 1 -> c == l.
Proof.
  intros Hd Hl H.
  assert (E : c * d == (c * (d / l)) * l) by (field; done).
  assert (E3 : c * (d / l) == d).
  { revert H. generalize (c * (d / l)). intros x Hx. lra. }
  assert (E' : (c - l) * d == 0).
  { assert (E2 : (c - l) * d == c * d - l * d) by ring. rewrite E2, E, E3. ring. }
  apply Qmult_integral in E' as [E'|E']; [lra|done].
Qed.

(** X8: for a damping factor other than 0, the values that
    [transition_model] returns for a page sum to 1 exactly when all the links
    of that page are keys of the corpus: the corpus invariant is what
    conservation of mass needs. *)
Theorem transition_model_mass_iff (corpus : gmap page (gset page)) (p : page)
    (links : gset page) (d : Q) :
  corpus !! p = Some links -> ~ d == 0 ->
  exists m, transition_model corpus p d = Ok m /\
    (dist_sum m == 1 <-> links ⊆ dom corpus).
Proof.
  intros Hp Hd.
  destruct (transition_model_spec corpus p links d Hp) as (m & Hm & Ht).
  exists m. split; [done|].
  rewrite (tabulates_sum m (keys corpus) _ (NoDup_keys corpus) Ht).
  split; [|by apply (transition_value_sum corpus p)].
  intros Hsum. destruct (decide (size links = O)) as [HL|HL].
  { apply size_empty_inv in HL. apply leibniz_equiv in HL. subst links.
    apply empty_subseteq. }
  rewrite (transition_value_sum_gen corpus p links d Hp HL) in Hsum.
  assert (Hl : ~ of_len (size links) == 0) by (by rewrite of_len_eq_0).
  pose proof (Q_share_full _ _ _ Hd Hl Hsum) as E.
  assert (Hsize : size (links ∩ dom corpus) = size links).
  { by apply of_len_inj. }
  assert (Heq : links ∩ dom corpus = links).
  { apply set_subseteq_size_eq; [apply intersection_subseteq_l|].
    by rewrite Hsize. }
  rewrite <- Heq. apply intersection_subseteq_r.
Qed.

Lemma transition_model_mass_iff_witness :
  exists m, transition_model dangling_corpus "B" (85 # 100) = Ok m /\
    (dist_sum m == 1 <-> ({["A"%string]} : gset page) ⊆ dom dangling_corpus).
Proof.
  apply (transition_model_mass_iff dangling_corpus "B" {["A"%string]} (85 # 100)).
  - reflexivity.
  - intros H. discriminate H.
Defined.

(** ** sample_pagerank: sample counts and exceptions *)

Lemma for_in_cons_raise {A S : Type} (x : A) (xs : list A)
    (body : A -> S -> result S) (st : S) (e : exception) :
  body x st = Raise e -> for_in (x :: xs) body st = Raise e.
Proof. intros H. cbn [for_in]. by rewrite H. Qed.

(** X9: a sample count that is not positive gives no distribution: on a
    non-empty corpus, [n = 0] raises [ZeroDivisionError] in the final
    normalisation, and a negative [n] makes no draw and returns the value 0
    for every page. *)
Theorem sample_pagerank_no_sample (corpus : gmap page (gset page)) (d : Q)
    (rand : nat -> Q) :
  corpus ≠ ∅ ->
  sample_pagerank corpus d 0 rand = Raise ZeroDivisionError /\
  (forall n, (n < 0)%Z ->
     exists r, sample_pagerank corpus d n rand = Ok r /\
       dom r = dom corpus /\
       forall k v, r !! k = Some v -> v == 0).
Proof.
  intros Hne. apply size_pos_of_nonempty in Hne.
  destruct (sample_init_spec corpus Hne) as (st0 & Hst0 & _ & Hsd0).
  split.
  - unfold sample_pagerank. rewrite Hst0. monad_step.
    change (Z.to_nat 0) with O. cbn [seq for_in]. monad_step.
    destruct (keys (st0.2)) as [|x rest] eqn:Hkeys.
    + apply (f_equal length) in Hkeys. rewrite length_keys in Hkeys.
      rewrite (tabulates_size _ _ _ (NoDup_keys corpus) Hsd0), length_keys in Hkeys.
      simpl in Hkeys. lia.
    + apply for_in_cons_raise.
      assert (Hx : x ∈ keys (st0.2)) by (rewrite Hkeys; left).
      apply elem_of_keys in Hx as [c Hc].
      by rewrite (getitem_ok _ _ _ Hc).
  - intros n Hn. unfold sample_pagerank. rewrite Hst0. monad_step.
    replace (Z.to_nat n) with O by lia. cbn [seq for_in]. monad_step.
    destruct (sample_normalise_spec (st0.2) (keys corpus) (fun _ => 0) n)
      as (r & Hr & Htab); [lia|done|].
    exists r. split; [done|]. split; [by eapply tabulates_dom|].
    intros k v Hk. rewrite Htab in Hk.
    destruct (decide (k ∈ keys corpus)); [|done]. injection Hk as <-.
    unfold Qdiv. ring.
Qed.

Lemma sample_pagerank_no_sample_witness :
  sample_pagerank dangling_corpus (85 # 100) 0 (fun _ => 1 # 3)
  = Raise ZeroDivisionError /\
  (forall n, (n < 0)%Z ->
     exists r, sample_pagerank dangling_corpus (85 # 100) n (fun _ => 1 # 3) = Ok r /\
       dom r = dom dangling_corpus /\
       forall k v, r !! k = Some v -> v == 0).
Proof.
  apply (sample_pagerank_no_sample dangling_corpus (85 # 100) (fun _ => 1 # 3)).
  apply dangling_corpus_nonempty.
Defined.

(** A loop whose body either keeps the invariant or raises an exception with
    the property [P] either ends with the invariant or raises such an
    exception. *)
Lemma for_in_inv_raise {A S : Type} (Inv : list A -> S -> Prop)
    (P : exception -> Prop) (xs : list A) (body : A -> S -> result S) (st0 : S) :
  Inv [] st0 ->
  (forall done x rest s, xs = done ++ x :: rest -> Inv done s ->
     match body x s with
     | Ok s' => Inv (done ++ [x]) s'
     | Raise e => P e
     end) ->
  match for_in xs body st0 with
  | Ok st => Inv xs st
  | Raise e => P e
  end.
Proof.
  intros H0 Hstep.
  assert (G : forall rest done s, xs = done ++ rest -> Inv done s ->
            match for_in rest body s with
            | Ok st => Inv xs st
            | Raise e => P e
            end).
  { induction rest as [|x rest IH]; intros done s Hxs Hinv.
    - rewrite app_nil_r in Hxs. simpl. by subst.
    - simpl. pose proof (Hstep done x rest s Hxs Hinv) as Hb.
      destruct (body x s) as [s'|e]; [|done]. monad_step.
      apply (IH (done ++ [x])); [by rewrite <- app_assoc|done]. }
  by apply (G xs [] st0).
Qed.

(** With as many weights as pages, and at least one page, [choices] returns
    a page of the population or raises [ValueError]. *)
Lemma choices_cases (population : list page) (weights : list Q) (u : Q) :
  length weights = length population -> (0 < length population)%nat ->
  match choices population weights u with
  | Ok pg => pg ∈ population
  | Raise e => e = ValueError
  end.
Proof.
  intros Hlen Hne. unfold choices.
  rewrite decide_True by (by rewrite length_accumulate).
  destruct (list_getitem_ok (accumulate weights) (length (accumulate weights) - 1))
    as (total & Htot & _); [rewrite length_accumulate; lia|].
  rewrite Htot. monad_step.
  destruct (Qle_bool total 0); [done|].
  destruct (bisect_ok (accumulate weights) (u * total) 0 (length population - 1))
    as (idx & Hidx & Hrange); [lia|rewrite length_accumulate; lia|].
  rewrite Hidx. monad_step.
  destruct (list_getitem_ok population idx) as (pg & -> & Hin); [lia|done].
Qed.

(** X10: on a non-empty corpus with [n >= 1] and a damping factor of
    magnitude at most 2^1023 (beyond it the division of an [int] by a length
    raises [OverflowError], which is not modelled), the only exception that
    [sample_pagerank] can raise is the [ValueError] of [random.choices] (a
    total weight that is not positive): never a [KeyError], an [IndexError]
    or a [ZeroDivisionError], whatever the draws. *)
Theorem sample_pagerank_raises (corpus : gmap page (gset page)) (d : Q)
    (n : Z) (rand : nat -> Q) (e : exception) :
  in_float_range d -> corpus ≠ ∅ -> (1 <= n)%Z ->
  sample_pagerank corpus d n rand = Raise e -> e = ValueError.
Proof.
  intros _ Hne Hn. apply size_pos_of_nonempty in Hne.
  unfold sample_pagerank.
  destruct (sample_init_spec corpus Hne) as (st0 & Hst0 & Hprob0 & Hsd0).
  rewrite Hst0. monad_step.
  match goal with |- context [for_in (seq _ _) ?b ?st] =>
    pose proof (for_in_inv_raise
      (fun done (s : gmap page Q * gmap page Q) =>
         (exists w, tabulates (s.1) (keys corpus) w) /\ count_inv corpus done (s.2))
      (fun e => e = ValueError) (seq 0 (Z.to_nat n)) b st) as Hloop
  end.
  match type of Hloop with ?A -> ?B -> _ =>
    assert (H0 : A); [|assert (Hstep : B); [|specialize (Hloop H0 Hstep)]]
  end.
  - split; [eauto|by apply count_inv_init].
  - intros done x rest s _ [[w Hw] Hcount].
    pose proof (choices_cases (keys corpus) (values (s.1)) (rand x)) as Hch.
    destruct (choices _ _ _) as [pg|e'].
    + monad_step.
      assert (Hpg : pg ∈ keys corpus).
      { apply Hch; [|by rewrite length_keys]. rewrite length_values.
        apply (tabulates_size _ _ w); [apply NoDup_keys|done]. }
      destruct (count_step corpus done (s.2) pg x Hcount Hpg) as (c & Hc & Hcount').
      rewrite Hc. monad_step. cbn zeta.
      pose proof Hpg as Hpg'. apply elem_of_keys in Hpg' as [links Hlinks].
      destruct (transition_model_spec corpus pg links d Hlinks) as (m & Hm & Ht).
      rewrite Hm. monad_step. cbn [fst snd]. split; [eauto|done].
    + monad_step. apply Hch; [|by rewrite length_keys]. rewrite length_values.
      apply (tabulates_size _ _ w); [apply NoDup_keys|done].
  - destruct (for_in (seq 0 (Z.to_nat n)) _ st0) as [st1|e1].
    + monad_step. destruct Hloop as [_ (cq & cnt & Hcq & _)].
      destruct (sample_normalise_spec (st1.2) (keys corpus) cq n) as (r & Hr & _);
        [lia|done|].
      by rewrite Hr.
    + monad_step. intros [= <-]. done.
Qed.

(** A corpus with a page whose only link leaves the corpus. *)
Lemma sample_pagerank_raises_witness :
  in_float_range 1 /\
  sample_pagerank {["A"%string := {["Z"%string]}]} 1 2 (fun _ => 1 # 3)
  = Raise ValueError.
Proof.
  assert (Hrange : in_float_range 1) by (vm_compute; discriminate).
  split; [exact Hrange|].
  assert (H : exists e, sample_pagerank {["A"%string := {["Z"%string]}]} 1 2
                          (fun _ => 1 # 3) = Raise e)
    by (eexists; vm_compute; reflexivity).
  destruct H as [e He]. rewrite He. f_equal.
  apply (sample_pagerank_raises {["A"%string := {["Z"%string]}]} 1 2
           (fun _ => 1 # 3) e Hrange); [|lia|exact He].
  intros E. apply (f_equal (fun m => m !! "A"%string)) in E.
  vm_compute in E. discriminate.
Defined.

Lemma accumulate_from_last (ws : list Q) (acc t : Q) :
  accumulate_from acc ws !! (length ws - 1)%nat = Some t -> ws ≠ [] ->
  t == acc + sumQ ws.
Proof.
  revert acc. induction ws as [|w ws IH]; intros acc Ht Hne; [done|].
  destruct ws as [|w' ws].
  - simpl in Ht. injection Ht as <-. rewrite sumQ_cons. unfold sumQ. simpl. ring.
  - cbn [accumulate_from length] in Ht.
    replace (S (S (length ws)) - 1)%nat with (S (length ws)) in Ht by lia.
    cbn [lookup list_lookup] in Ht.
    assert (E : t == acc + w + sumQ (w' :: ws)).
    { apply IH; [|done]. cbn [length].
      by replace (S (length ws) - 1)%nat with (length ws) by lia. }
    rewrite E, (sumQ_cons w (w' :: ws)). ring.
Qed.

(** The last cumulative weight is the sum of the weights. *)
Lemma accumulate_last (ws : list Q) (t : Q) :
  list_getitem (accumulate ws) (length (accumulate ws) - 1) = Ok t ->
  t == sumQ ws.
Proof.
  unfold list_getitem. destruct ws as [|w ws]; [done|].
  cbn [accumulate length]. rewrite length_accumulate_from.
  destruct ws as [|w' ws].
  - simpl. intros [= <-]. unfold sumQ. simpl. ring.
  - replace (S (length (w' :: ws)) - 1)%nat with (S (length (w' :: ws) - 1))
      by (simpl; lia).
    cbn [lookup list_lookup].
    destruct (accumulate_from w (w' :: ws) !! _) as [t'|] eqn:E; [|done].
    intros [= <-]. rewrite (accumulate_from_last _ _ _ E) by done.
    by rewrite (sumQ_cons w).
Qed.

(** With as many weights as pages, at least one page and a positive total
    weight, [choices] returns a page of the population. *)
Lemma choices_ok_total (population : list page) (weights : list Q) (u : Q) :
  length weights = length population -> (0 < length population)%nat ->
  0 < sumQ weights ->
  exists pg, choices population weights u = Ok pg /\ pg ∈ population.
Proof.
  intros Hlen Hne Hpos. unfold choices.
  rewrite decide_True by (by rewrite length_accumulate).
  destruct (list_getitem_ok (accumulate weights) (length (accumulate weights) - 1))
    as (total & Htot & _); [rewrite length_accumulate; lia|].
  rewrite Htot. monad_step. apply accumulate_last in Htot.
  destruct (Qle_bool total 0) eqn:E.
  { apply Qle_bool_iff in E. lra. }
  destruct (bisect_ok (accumulate weights) (u * total) 0 (length population - 1))
    as (idx & Hidx & Hrange); [lia|rewrite length_accumulate; lia|].
  rewrite Hidx. monad_step. apply list_getitem_ok. lia.
Qed.

(** X11: on a non-empty corpus in which every linked page is a key, and for
    [n >= 1], [sample_pagerank] returns also at the ends of the interval, for
    every damping factor from 0 to 1 with 0 and 1 included, and every random
    source; the result has the pages of the corpus as keys, values in [0, 1],
    and sums to 1. *)
Theorem sample_pagerank_closed_interval (corpus : gmap page (gset page)) (d : Q)
    (n : Z) (rand : nat -> Q) :
  corpus ≠ ∅ -> corpus_invariant corpus -> 0 <= d <= 1 -> (1 <= n)%Z ->
  exists r, sample_pagerank corpus d n rand = Ok r /\
    dom r = dom corpus /\
    (forall k v, r !! k = Some v -> 0 <= v <= 1) /\
    dist_sum r == 1.
Proof.
  intros Hne Hinv _ Hn. apply size_pos_of_nonempty in Hne.
  pose proof (NoDup_keys corpus) as Hnd.
  unfold sample_pagerank.
  destruct (sample_init_spec corpus Hne) as (st0 & Hst0 & Hprob0 & Hsd0).
  rewrite Hst0. monad_step.
  match goal with |- context [for_in (seq _ _) ?b ?st] =>
    destruct (for_in_inv
      (fun done (s : gmap page Q * gmap page Q) =>
         (exists w, tabulates (s.1) (keys corpus) w /\
                    sum_over (keys corpus) w == 1) /\
         count_inv corpus done (s.2))
      (seq 0 (Z.to_nat n)) b st) as (st1 & Hst1 & Hinv1)
  end.
  - split; [|by apply count_inv_init].
    eexists. split; [exact Hprob0|].
    rewrite sum_over_const, length_keys. apply of_len_pos in Hne. field. lra.
  - intros done x rest s _ [(w & Hw & Hsum) Hcount].
    destruct (choices_ok_total (keys corpus) (values (s.1)) (rand x))
      as (pg & Hpg & Hin).
    { rewrite length_values. by apply (tabulates_size _ _ w). }
    { by rewrite length_keys. }
    { change (sumQ (values (s.1))) with (dist_sum (s.1)).
      rewrite (tabulates_sum _ _ _ Hnd Hw), Hsum. reflexivity. }
    rewrite Hpg. monad_step.
    destruct (count_step corpus done (s.2) pg x Hcount Hin) as (c & Hc & Hcount').
    rewrite Hc. monad_step. cbn zeta.
    pose proof Hin as Hin'. apply elem_of_keys in Hin' as [links Hlinks].
    destruct (transition_model_spec corpus pg links d Hlinks) as (m & Hm & Ht).
    rewrite Hm. monad_step. eexists. split; [reflexivity|].
    split; cbn [fst snd]; [|done].
    eexists. split; [exact Ht|].
    apply (transition_value_sum corpus pg); [done|]. by apply (Hinv pg).
  - rewrite Hst1. monad_step.
    destruct Hinv1 as [_ (cq & cnt & Hcq & Hcnt & Hnn & Hsum)].
    destruct (sample_normalise_spec (st1.2) (keys corpus) cq n) as (r & Hr & Htab);
      [lia|done|].
    rewrite length_seq in Hsum.
    assert (Hsum' : count_sum (keys corpus) cnt = n) by lia.
    destruct (normalised_counts r (keys corpus) cq cnt n Hnd Hn Htab Hcnt Hnn Hsum')
      as [Hval Hone].
    exists r. split; [done|]. split; [by eapply tabulates_dom|]. split; [|done].
    intros k v Hk. pose proof Hk as Hk'. rewrite Htab in Hk'.
    destruct (decide (k ∈ keys corpus)) as [Hkin|]; [|done].
    destruct (Hval k Hkin) as (v' & Hv' & _ & _ & Hrange). congruence.
Qed.

Lemma sample_pagerank_closed_interval_witness :
  exists r, sample_pagerank dangling_corpus 1 3 (fun _ => 1 # 3) = Ok r /\
    dom r = dom dangling_corpus /\
    (forall k v, r !! k = Some v -> 0 <= v <= 1) /\
    dist_sum r == 1.
Proof.
  apply (sample_pagerank_closed_interval dangling_corpus 1 3 (fun _ => 1 # 3)).
  - apply dangling_corpus_nonempty.
  - apply dangling_corpus_invariant.
  - split; discriminate.
  - lia.
Defined.

(** ** iterate_pagerank: exceptions, range of the ranks, the Markov step *)

Lemma while_loop_no_raise (corpus : gmap page (gset page)) (d : Q) (fuel : nat) :
  (0 < size corpus)%nat ->
  forall (new prev : gmap page Q) (md : Q) (e : exception),
    dom new = dom corpus ->
    while_loop fuel corpus d (of_len (size corpus)) new prev md ≠ Some (Raise e).
Proof.
  intros HN. induction fuel as [|fuel IH]; intros new prev md e Hdom.
  - simpl. by destruct (Qlt_le_dec (1 # 1000) md).
  - destruct (Qlt_le_dec (1 # 1000) md) as [Hgt|Hle].
    + destruct (pass_spec corpus d new HN Hdom) as (Hrun & Hdom' & _).
      rewrite (while_loop_step _ _ _ _ _ _ _ _ Hgt Hrun). by apply IH.
    + by rewrite while_loop_done.
Qed.

Lemma iterate_pagerank_empty (d : Q) (fuel : nat) :
  iterate_pagerank fuel ∅ d = match fuel with O => None | S _ => Some (Ok ∅) end.
Proof.
  unfold iterate_pagerank, iterate_init. rewrite keys_empty. cbn [for_in fst snd].
  destruct fuel as [|fuel]; [reflexivity|].
  rewrite (while_loop_step fuel _ _ _ _ _ _ (∅, 0)).
  - by apply while_loop_done.
  - reflexivity.
  - unfold update_pass. by rewrite keys_empty.
Qed.

Lemma iterate_pagerank_no_raise (corpus : gmap page (gset page)) (d : Q)
    (fuel : nat) :
  iterate_pagerank fuel corpus d = None \/
  exists r, iterate_pagerank fuel corpus d = Some (Ok r).
Proof.
  destruct (iterate_pagerank fuel corpus d) as [[r|e]|] eqn:Hrun; [eauto| |eauto].
  exfalso. revert Hrun.
  destruct (decide (corpus = ∅)) as [->|Hne].
  - rewrite iterate_pagerank_empty. by destruct fuel.
  - apply size_pos_of_nonempty in Hne. unfold iterate_pagerank.
    destruct (initial_ranks_spec corpus Hne) as ([prev0 Hinit] & Hdom & _).
    rewrite Hinit. cbn [fst snd]. by apply while_loop_no_raise.
Qed.

(** X12: for a damping factor of magnitude at most 2^1023 (beyond it the
    division of an [int] by a length raises [OverflowError], which is not
    modelled), [iterate_pagerank] raises no exception, on any corpus: every
    lookup it makes is of a key and every division is by a number of pages or
    of links that is not zero.  It either returns a dictionary or is still in
    its loop when the fuel ends. *)
Theorem iterate_pagerank_never_raises (corpus : gmap page (gset page)) (d : Q)
    (fuel : nat) :
  in_float_range d ->
  iterate_pagerank fuel corpus d = None \/
  exists r, iterate_pagerank fuel corpus d = Some (Ok r).
Proof. intros _. apply iterate_pagerank_no_raise. Qed.

Lemma iterate_pagerank_never_raises_witness :
  in_float_range 2 /\
  (iterate_pagerank 5 dangling_corpus 2 = None \/
   exists r, iterate_pagerank 5 dangling_corpus 2 = Some (Ok r)).
Proof.
  assert (Hrange : in_float_range 2) by (vm_compute; discriminate).
  split; [exact Hrange|].
  exact (iterate_pagerank_never_raises dangling_corpus 2 5 Hrange).
Defined.

Lemma sum_over_ge_elem (ks : list page) (f : page -> Q) (k : page) :
  (forall i, i ∈ ks -> 0 <= f i) -> k ∈ ks -> f k <= sum_over ks f.
Proof.
  induction ks as [|x ks IH]; intros Hpos Hk; [by apply elem_of_nil in Hk|].
  rewrite sum_over_cons.
  assert (0 <= f x) by (apply Hpos; left).
  assert (0 <= sum_over ks f).
  { apply sum_over_nonneg. intros i Hi. apply Hpos. by right. }
  apply elem_of_cons in Hk as [->|Hk]; [lra|].
  assert (f k <= sum_over ks f); [|lra].
  apply IH; [|done]. intros i Hi. apply Hpos. by right.
Qed.

(** A pass gives every page at least the random-jump term. *)
Lemma next_rank_lower (corpus : gmap page (gset page)) (d : Q) (x : page -> Q)
    (p : page) :
  0 <= d -> (forall i, i ∈ keys corpus -> 0 <= x i) ->
  (1 - d) / of_len (size corpus) <= next_rank corpus d x p.
Proof.
  intros Hd Hx. unfold next_rank.
  assert (0 <= sum_over (keys corpus) (fun i => x i * share corpus i p)).
  { apply sum_over_nonneg. intros i Hi.
    apply Qmult_le_0_compat; [by apply Hx|apply share_nonneg]. }
  assert (0 <= d * sum_over (keys corpus) (fun i => x i * share corpus i p))
    by (by apply Qmult_le_0_compat).
  lra.
Qed.

Lemma ranks_at_nonneg (corpus : gmap page (gset page)) (d : Q) (j : nat)
    (k : page) :
  (0 < size corpus)%nat -> 0 <= d <= 1 -> k ∈ keys corpus ->
  0 <= rank (ranks_at corpus d j) k.
Proof.
  intros HN [Hd0 Hd1]. pose proof (of_len_pos _ HN) as HNpos.
  revert k. induction j as [|j IH]; intros k Hk.
  - cbn [ranks_at]. unfold initial_ranks.
    destruct (iterate_init_spec corpus HN) as (st & -> & Hm & _).
    unfold rank. rewrite Hm, decide_True by done. cbn.
    apply Qdiv_nonneg; lra.
  - cbn [ranks_at].
    destruct (pass_spec corpus d _ HN (ranks_at_dom corpus d j HN))
      as (_ & _ & Hnext & _).
    rewrite (Hnext k Hk).
    eapply Qle_trans; [|apply next_rank_lower; [done|exact IH]].
    apply Qdiv_nonneg; lra.
Qed.

(** X13: on a non-empty corpus in which every linked page is a key, and for
    a damping factor in (0, 1), every rank that [iterate_pagerank] returns is
    at least [(1 - d)/N], hence positive, and at most 1. *)
Theorem iterate_pagerank_range (corpus : gmap page (gset page)) (d : Q)
    (fuel : nat) (r : gmap page Q) (k : page) (v : Q) :
  corpus ≠ ∅ -> corpus_invariant corpus -> 0 < d < 1 ->
  iterate_pagerank fuel corpus d = Some (Ok r) -> r !! k = Some v ->
  0 < (1 - d) / of_len (size corpus) <= v /\ v <= 1.
Proof.
  intros Hne Hinv [Hd0 Hd1] Hrun Hk. apply size_pos_of_nonempty in Hne.
  pose proof (of_len_pos _ Hne) as HNpos.
  destruct (iterate_pagerank_sum corpus d fuel r Hne Hinv Hrun) as [Hdom Hsum].
  destruct (iterate_pagerank_ranks_at corpus d fuel r Hne Hrun) as (j & Hj & ->).
  assert (Hkin : k ∈ keys corpus).
  { apply elem_of_keys_dom. rewrite <- Hdom. apply elem_of_dom. eauto. }
  assert (Hv : v = rank (ranks_at corpus d j) k) by (unfold rank; by rewrite Hk).
  subst v. split; [split|].
  - apply Qdiv_pos; lra.
  - destruct j as [|j]; [lia|]. cbn [ranks_at].
    destruct (pass_spec corpus d _ Hne (ranks_at_dom corpus d j Hne))
      as (_ & _ & Hnext & _).
    rewrite (Hnext k Hkin). apply next_rank_lower; [lra|].
    intros i Hi. apply ranks_at_nonneg; [done|lra|done].
  - rewrite (dist_sum_rank _ corpus Hdom) in Hsum. rewrite <- Hsum.
    apply (sum_over_ge_elem (keys corpus) (rank (ranks_at corpus d j))); [|done].
    intros i Hi. apply ranks_at_nonneg; [done|lra|done].
Qed.

Lemma iterate_pagerank_range_witness :
  exists r v,
    iterate_pagerank 10 dangling_corpus (85 # 100) = Some (Ok r) /\
    r !! "A"%string = Some v /\
    0 < (1 - (85 # 100)) / of_len (size dangling_corpus) <= v /\ v <= 1.
Proof.
  assert (H : exists r, iterate_pagerank 10 dangling_corpus (85 # 100) = Some (Ok r))
    by (eexists; vm_compute; reflexivity).
  destruct H as [r Hr]. pose proof dangling_corpus_nonempty as Hne.
  destruct (iterate_pagerank_sum dangling_corpus (85 # 100) 10 r
              (size_pos_of_nonempty _ Hne) dangling_corpus_invariant Hr)
    as [Hdom _].
  assert (HA : is_Some (r !! "A"%string)).
  { apply elem_of_dom. rewrite Hdom. apply elem_of_dom. vm_compute. eauto. }
  destruct HA as [v Hv]. exists r, v. split; [exact Hr|]. split; [exact Hv|].
  apply (iterate_pagerank_range dangling_corpus (85 # 100) 10 r "A" v).
  - exact Hne.
  - apply dangling_corpus_invariant.
  - split; reflexivity.
  - exact Hr.
  - exact Hv.
Defined.

(** The probability of the move from [i] to [p] is the random-jump term plus
    the damped share of [i] given to [p]. *)
Lemma transition_prob_share (corpus : gmap page (gset page)) (d : Q)
    (i p : page) :
  i ∈ keys corpus -> p ∈ keys corpus ->
  transition_prob corpus d i p
  == (1 - d) / of_len (size corpus) + d * share corpus i p.
Proof.
  intros Hi Hp. pose proof Hi as Hi'. apply elem_of_keys in Hi' as [links Hlinks].
  destruct (transition_model_spec corpus i links d Hlinks) as (m & Hm & Ht).
  assert (HN : ~ of_len (size corpus) == 0) by (apply (size_corpus_nonzero _ i); eauto).
  unfold transition_prob, rank, share. rewrite Hm, Ht, decide_True, Hlinks by done.
  cbn [default]. unfold id, transition_value.
  destruct (decide (size links = O)) as [HL|HL]; [by field|].
  assert (~ of_len (size links) == 0) by (by rewrite of_len_eq_0).
  destruct (decide (p ∈ links)); [by field|ring].
Qed.

(** For ranks that sum to 1, a pass is one step of the Markov chain of the
    transition model. *)
Lemma next_rank_markov (corpus : gmap page (gset page)) (d : Q)
    (x : page -> Q) (p : page) :
  (0 < size corpus)%nat -> sum_over (keys corpus) x == 1 -> p ∈ keys corpus ->
  next_rank corpus d x p
  == sum_over (keys corpus) (fun i => x i * transition_prob corpus d i p).
Proof.
  intros HN Hsum Hp. apply of_len_pos in HN.
  rewrite (sum_over_ext _ _ (fun i =>
    (1 - d) / of_len (size corpus) * x i + d * (x i * share corpus i p))).
  - rewrite sum_over_plus, !sum_over_scale, Hsum. unfold next_rank. ring.
  - intros i Hi. rewrite (transition_prob_share corpus d i p Hi Hp). ring.
Qed.

(** X14: one pass of the loop of [iterate_pagerank] is one step of the Markov
    chain that [transition_model] defines: when the previous ranks sum to 1,
    the new rank of a page [p] is the sum, over all pages [i], of the
    previous rank of [i] times the probability that [transition_model] gives
    to the move from [i] to [p]. *)
Theorem update_pass_markov (corpus : gmap page (gset page)) (d : Q)
    (prev : gmap page Q) :
  corpus ≠ ∅ -> dom prev = dom corpus -> dist_sum prev == 1 ->
  exists new max_diff,
    update_pass corpus d (of_len (size corpus)) prev prev = Ok (new, max_diff) /\
    forall p, p ∈ dom corpus ->
      rank new p
      == sum_over (keys corpus)
           (fun i => rank prev i * transition_prob corpus d i p).
Proof.
  intros Hne Hdom Hsum. apply size_pos_of_nonempty in Hne.
  destruct (pass_spec corpus d prev Hne Hdom) as (Hrun & _ & Hnext & _).
  exists ((pass corpus d prev).1), ((pass corpus d prev).2).
  split; [rewrite Hrun; by destruct (pass corpus d prev)|].
  intros p Hp. apply elem_of_keys_dom in Hp. rewrite (Hnext p Hp).
  apply next_rank_markov; [done| |done].
  by rewrite <- (dist_sum_rank prev corpus Hdom).
Qed.

Lemma update_pass_markov_witness :
  exists new max_diff,
    update_pass dangling_corpus (85 # 100) (of_len (size dangling_corpus))
      (initial_ranks dangling_corpus) (initial_ranks dangling_corpus)
    = Ok (new, max_diff) /\
    forall p, p ∈ dom dangling_corpus ->
      rank new p
      == sum_over (keys dangling_corpus)
           (fun i => rank (initial_ranks dangling_corpus) i
                     * transition_prob dangling_corpus (85 # 100) i p).
Proof.
  pose proof dangling_corpus_nonempty as Hne.
  destruct (initial_ranks_spec dangling_corpus (size_pos_of_nonempty _ Hne))
    as (_ & Hdom & Hsum).
  exact (update_pass_markov dangling_corpus (85 # 100)
           (initial_ranks dangling_corpus) Hne Hdom Hsum).
Defined.

(** What the loop returns was produced by a pass that met the exit test. *)
Lemma while_loop_converged (corpus : gmap page (gset page)) (d : Q) (fuel : nat) :
  (0 < size corpus)%nat ->
  forall (new prev r : gmap page Q) (md : Q),
    dom new = dom corpus ->
    (md <= 1 # 1000 -> converged corpus d new) ->
    while_loop fuel corpus d (of_len (size corpus)) new prev md = Some (Ok r) ->
    converged corpus d r.
Proof.
  intros HN. induction fuel as [|fuel IH]; intros new prev r md Hdom Hconv H.
  - simpl in H. destruct (Qlt_le_dec (1 # 1000) md) as [|Hle]; [done|].
    injection H as <-. by apply Hconv.
  - destruct (Qlt_le_dec (1 # 1000) md) as [Hgt|Hle].
    + destruct (pass_spec corpus d new HN Hdom) as (Hrun & Hdom' & _).
      rewrite (while_loop_step _ _ _ _ _ _ _ _ Hgt Hrun) in H.
      apply (IH _ _ _ _ Hdom') in H; [done|]. intros Hle.
      by apply converged_pass.
    + rewrite while_loop_done in H by done. injection H as <-. by apply Hconv.
Qed.

Lemma iterate_pagerank_converged (corpus : gmap page (gset page)) (d : Q)
    (fuel : nat) (r : gmap page Q) :
  (0 < size corpus)%nat ->
  iterate_pagerank fuel corpus d = Some (Ok r) -> converged corpus d r.
Proof.
  intros HN. unfold iterate_pagerank.
  destruct (initial_ranks_spec corpus HN) as ([prev0 Hinit] & Hdom & _).
  rewrite Hinit. cbn [fst snd]. apply while_loop_converged; [done|done|].
  intros Habs. exfalso. revert Habs. apply Qlt_not_le. reflexivity.
Qed.

(** X15: the ranks that [iterate_pagerank] returns are close to a fixed point
    of the recurrence: for a damping factor from 0 to 1 on a non-empty
    corpus, one more pass in exact arithmetic would change them by at most
    [d * N / 1000], summed over all pages. *)
Theorem iterate_pagerank_residual (corpus : gmap page (gset page)) (d : Q)
    (fuel : nat) (r : gmap page Q) :
  corpus ≠ ∅ -> 0 <= d <= 1 ->
  iterate_pagerank fuel corpus d = Some (Ok r) ->
  sum_over (keys corpus)
    (fun p => Qabs (next_rank corpus d (rank r) p - rank r p))
  <= d * (of_len (size corpus) * (1 # 1000)).
Proof.
  intros Hne [Hd _] Hrun. apply size_pos_of_nonempty in Hne.
  destruct (iterate_pagerank_converged corpus d fuel r Hne Hrun)
    as (prev & md & Hdom & Hpass & Hmd & Hmax).
  destruct (pass_spec corpus d prev Hne Hdom) as (Hrun' & _ & Hnext & _).
  rewrite Hpass in Hrun'. injection Hrun' as Hr.
  assert (Hnext' : forall k, k ∈ keys corpus ->
            rank r k == next_rank corpus d (rank prev) k).
  { intros k Hk. rewrite <- (Hnext k Hk), <- Hr. reflexivity. }
  rewrite (sum_over_ext _ _ (fun p =>
    Qabs (next_rank corpus d (rank r) p - next_rank corpus d (rank prev) p))).
  2:{ intros p Hp. by rewrite <- (Hnext' p Hp). }
  eapply Qle_trans; [by apply next_rank_contraction|].
  apply Qmult_le_l_weak; [done|].
  eapply Qle_trans.
  { apply (sum_over_le _ _ (fun _ => 1 # 1000)). intros k Hk.
    eapply Qle_trans; [|exact Hmd]. apply Hmax. by apply elem_of_keys_dom. }
  rewrite sum_over_const, length_keys. apply Qle_refl.
Qed.

Lemma iterate_pagerank_residual_witness :
  exists r,
    iterate_pagerank 10 dangling_corpus (85 # 100) = Some (Ok r) /\
    sum_over (keys dangling_corpus)
      (fun p => Qabs (next_rank dangling_corpus (85 # 100) (rank r) p - rank r p))
    <= (85 # 100) * (of_len (size dangling_corpus) * (1 # 1000)).
Proof.
  assert (H : exists r, iterate_pagerank 10 dangling_corpus (85 # 100) = Some (Ok r))
    by (eexists; vm_compute; reflexivity).
  destruct H as [r Hr]. exists r. split; [exact Hr|].
  apply (iterate_pagerank_residual dangling_corpus (85 # 100) 10 r).
  - apply dangling_corpus_nonempty.
  - split; discriminate.
  - exact Hr.
Defined.




(** ** crawl: examples and the rankings of a crawled directory *)

Lemma crawl_example : crawl one_link example_listing = Crawled example_corpus.
Proof. vm_compute. reflexivity. Qed.

Lemma example_listing_NoDup : NoDup (example_listing.*1).
Proof.
  cbn. repeat (apply NoDup_cons; split; [|]); try apply NoDup_nil_2;
    rewrite ?elem_of_cons, ?elem_of_nil; intros H;
    repeat (destruct H as [H|H]; [discriminate H|]); exact H.
Qed.

Lemma crawl_links_witness :
  (forall f, f ∈ dom example_corpus <->
             f ∈ example_listing.*1 /\ endswith f ".html" = true) /\
  (forall f c, (f, Some c) ∈ example_listing -> endswith f ".html" = true ->
     exists links, example_corpus !! f = Some links /\
       forall l, l ∈ links <-> l ∈ one_link c /\ l ≠ f /\ l ∈ dom example_corpus).
Proof.
  exact (crawl_links one_link example_listing example_corpus
           example_listing_NoDup crawl_example).
Defined.

Lemma crawl_corpus_invariant_witness : corpus_invariant example_corpus.
Proof.
  exact (crawl_corpus_invariant one_link example_listing example_corpus
           crawl_example).
Defined.

Lemma crawl_no_self_link_witness :
  example_corpus !! "1.html"%string = Some {["2.html"%string]} /\
  "1.html"%string ∉ ({["2.html"%string]} : gset page).
Proof.
  split; [reflexivity|].
  apply (crawl_no_self_link one_link example_listing example_corpus).
  - exact crawl_example.
  - reflexivity.
Defined.

Lemma crawl_nonempty (findall : string -> list string)
    (listing : list (string * option string)) (corpus : gmap page (gset page))
    (f : string) :
  crawl findall listing = Crawled corpus ->
  f ∈ listing.*1 -> endswith f ".html" = true -> corpus ≠ ∅.
Proof.
  intros Hcrawl Hf Hhtml ->.
  destruct (crawl_crawled findall listing ∅ Hcrawl) as (pages & Hread & Hdom & _).
  assert (Hin : f ∈ dom pages).
  { apply (crawl_read_dom findall _ _ _ f Hread). by right. }
  rewrite <- Hdom, dom_empty_L in Hin. by apply not_elem_of_empty in Hin.
Qed.

(** X17: the two rankings that [main] computes on a crawled directory: when
    [crawl] returns a corpus and the listing has a name ending in [.html],
    then for a damping factor in (0, 1) (0.85 in [main]) and [n >= 1] samples
    (10000 in [main]) [sample_pagerank] returns a distribution over the pages
    for every random source, and [iterate_pagerank] raises no exception:
    whatever it returns is a distribution over the pages; both sum to 1. *)
Theorem crawl_then_rank (findall : string -> list string)
    (listing : list (string * option string)) (corpus : gmap page (gset page))
    (f : string) (d : Q) :
  crawl findall listing = Crawled corpus ->
  f ∈ listing.*1 -> endswith f ".html" = true -> 0 < d < 1 ->
  (forall (n : Z) (rand : nat -> Q), (1 <= n)%Z ->
     exists r, sample_pagerank corpus d n rand = Ok r /\
       dom r = dom corpus /\ dist_sum r == 1) /\
  (forall fuel,
     iterate_pagerank fuel corpus d = None \/
     exists r, iterate_pagerank fuel corpus d = Some (Ok r) /\
       dom r = dom corpus /\ dist_sum r == 1).
Proof.
  intros Hcrawl Hf Hhtml Hd.
  pose proof (crawl_nonempty findall listing corpus f Hcrawl Hf Hhtml) as Hne.
  pose proof (crawl_links_are_keys findall listing corpus Hcrawl) as Hinv.
  apply size_pos_of_nonempty in Hne. split.
  - intros n rand Hn.
    destruct (sample_pagerank_spec corpus d n rand Hne Hd Hn)
      as (r & cq & cnt & Hr & Htab & Hcq & Hnn & Hsum).
    destruct (normalised_counts r (keys corpus) cq cnt n (NoDup_keys corpus)
      Hn Htab Hcq Hnn Hsum) as [_ Hone].
    exists r. split; [done|]. split; [by eapply tabulates_dom|done].
  - intros fuel.
    destruct (iterate_pagerank_no_raise corpus d fuel) as [Hrun|[r Hrun]];
      [by left|right].
    exists r. split; [done|].
    by apply (iterate_pagerank_sum corpus d fuel r Hne Hinv).
Qed.

Lemma crawl_then_rank_witness :
  (forall (n : Z) (rand : nat -> Q), (1 <= n)%Z ->
     exists r, sample_pagerank example_corpus (85 # 100) n rand = Ok r /\
       dom r = dom example_corpus /\ dist_sum r == 1) /\
  (forall fuel,
     iterate_pagerank fuel example_corpus (85 # 100) = None \/
     exists r, iterate_pagerank fuel example_corpus (85 # 100) = Some (Ok r) /\
       dom r = dom example_corpus /\ dist_sum r == 1).
Proof.
  apply (crawl_then_rank one_link example_listing example_corpus "1.html" (85 # 100)).
  - exact crawl_example.
  - cbn. left.
  - reflexivity.
  - split; reflexivity.
Defined.

Lemma crawl_read_no_html (findall : string -> list string)
    (listing : list (string * option string)) (pages : gmap page (gset page)) :
  (forall f, f ∈ listing.*1 -> endswith f ".html" = false) ->
  crawl_read findall listing pages = inr pages.
Proof.
  induction listing as [|[g oc] rest IH]; intros Hno; [done|].
  cbn [crawl_read]. rewrite (Hno g) by (rewrite fmap_cons; left). cbn [negb].
  apply IH. intros f Hf. apply Hno. rewrite fmap_cons. by right.
Qed.

Lemma sample_pagerank_empty (d : Q) (n : Z) (rand : nat -> Q) :
  (1 <= n)%Z -> sample_pagerank ∅ d n rand = Raise IndexError.
Proof.
  intros Hn. unfold sample_pagerank. rewrite keys_empty.
  cbn [for_in mbind result_bind fst snd].
  destruct (Z.to_nat n) as [|m] eqn:E; [lia|].
  cbn [seq for_in fst snd]. rewrite values_empty. reflexivity.
Qed.

(** X18: on a directory without a name ending in [.html], [crawl] returns
    the empty corpus, whatever the files are, and the sampling that [main]
    runs next stops with the [IndexError] of [random.choices] on an empty
    population. *)
Theorem crawl_no_page (findall : string -> list string)
    (listing : list (string * option string)) (d : Q) (n : Z) (rand : nat -> Q) :
  (forall f, f ∈ listing.*1 -> endswith f ".html" = false) -> (1 <= n)%Z ->
  crawl findall listing = Crawled ∅ /\
  sample_pagerank ∅ d n rand = Raise IndexError.
Proof.
  intros Hno Hn. split; [|by apply sample_pagerank_empty].
  unfold crawl. rewrite crawl_read_no_html by done.
  unfold crawl_filter. by rewrite keys_empty.
Qed.

Lemma crawl_no_page_witness :
  crawl one_link [("notes.txt"%string, None)] = Crawled ∅ /\
  sample_pagerank ∅ (85 # 100) 10000 (fun _ => 0) = Raise IndexError.
Proof.
  apply (crawl_no_page one_link [("notes.txt"%string, None)] (85 # 100) 10000
           (fun _ => 0)); [|lia].
  intros f Hf. cbn in Hf. apply list_elem_of_singleton in Hf as ->. reflexivity.
Defined.
